(** * The day-schedule partition engine of the daily planner

    A shallow embedding of the planner component (DailyPlanner): the
    time helpers, the default day, the merge / unmerge / task updaters,
    the range splicer [replaceRangeWithSingleBlock], the cross-day
    propagation [applyBlockToAllDays], the custom-range entry point
    [addCustomBlock] and the schedule initialiser.

    Conventions of the embedding.
    - Minutes are JavaScript numbers holding integers; they are modelled
      as [Z].  [NaN] is modelled by [None] in [option Z].
    - An array is a [list]; [arr[i]] is [arr !! i], [undefined] when out
      of range.  Indices are array indices, hence [nat].
    - The schedule is a JavaScript object keyed by day name: a
      [gmap string (list Block)].
    - A thrown exception (a [TypeError] on a property access of
      [undefined], a [SyntaxError] of [JSON.parse]) is [None] in the
      option monad: the updater produces no new state.
    - Free text typed by the user is a sequence of UTF-16 code units,
      [list N].  Opaque strings (ids, task text, day names, mode) are
      [string].
    - [Math.random().toString(36).slice(2, 9)] is an oracle
      [uid_at : nat -> string]; the state counts the draws made so far. *)

From Stdlib Require Import Ascii String DecimalString.
From stdpp Require Import gmap strings list fin_maps.
Open Scope Z_scope.

(** ** Data model *)

Module Task.

Record t := mk { id : string; text : string; done : bool }.

(** [{ ...t, id: i }] *)
Definition with_id (x : t) (i : string) : t :=
  {| id := i; text := text x; done := done x |}.

End Task.

Record Block := mkBlock { start : Z; span : Z; tasks : list Task.t }.

(** [{ ...blk, tasks: ts }] *)
Definition with_tasks (blk : Block) (ts : list Task.t) : Block :=
  {| start := start blk; span := span blk; tasks := ts |}.

Definition MINS_IN_DAY : Z := 1440.

Definition DAYS : list string :=
  ["Sunday"; "Monday"; "Tuesday"; "Wednesday"; "Thursday"; "Friday"; "Saturday"]%string.

(** [Array.from({ length: 24 }, (_, h) => ({ start: h * 60, span: 60, tasks: [] }))] *)
Definition defaultDay : list Block :=
  (λ h : nat, {| start := Z.of_nat h * 60; span := 60; tasks := [] |}) <$> seq 0 24.

(** [Array.prototype.splice(st, dc, ...items)] for non-negative [st], [dc]:
    a start beyond the end is clamped to the length, and so is the
    delete count. *)
Definition splice {A} (l : list A) (st dc : nat) (items : list A) : list A :=
  take st l ++ items ++ drop (st + dc) l.

(** ** Merge / unmerge updaters *)

(** The updater passed to [setDaySlots] by [mergeSlots(i)]. *)
Definition mergeSlots (i : nat) (slots : list Block) : option (list Block) :=
  if Z.of_nat (length slots) - 1 <=? Z.of_nat i then Some slots
  else
    a ← slots !! i;
    b ← slots !! S i;
    let aEnd := start a + span a in
    if negb (aEnd =? start b) then Some slots
    else
      let next :=
        <[i := {| start := start a; span := span a + span b;
                  tasks := tasks a ++ tasks b |}]> slots in
      Some (splice next (S i) 1 []).

(** The updater passed to [setDaySlots] by [unmergeSlot(i)]. *)
Definition unmergeSlot (i : nat) (slots : list Block) : option (list Block) :=
  match slots !! i with
  | None => Some slots
  | Some s =>
      if span s <=? 60 then Some slots
      else
        let first := {| start := start s; span := 60; tasks := tasks s |} in
        let second := {| start := start s + 60; span := span s - 60; tasks := [] |} in
        Some (splice (splice slots i 1 [first]) (S i) 0 [second])
  end.

(** ** Task updaters *)

Record TaskPatch := mkPatch {
  patch_id : option string;
  patch_text : option string;
  patch_done : option bool
}.

(** [{ ...t, ...patch }] *)
Definition applyPatch (x : Task.t) (p : TaskPatch) : Task.t :=
  {| Task.id := default (Task.id x) (patch_id p);
     Task.text := default (Task.text x) (patch_text p);
     Task.done := default (Task.done x) (patch_done p) |}.

(** [addTask(i)] once the prompt gave a non-empty [text] and [uid()]
    gave [newId]. *)
Definition addTask (i : nat) (newId text : string) (slots : list Block)
  : option (list Block) :=
  blk ← slots !! i;
  Some (<[i := with_tasks blk
                 (tasks blk ++ [ {| Task.id := newId; Task.text := text;
                                    Task.done := false |} ])]> slots).

Definition updateTask (i : nat) (tid : string) (patch : TaskPatch)
    (slots : list Block) : option (list Block) :=
  blk ← slots !! i;
  Some (<[i := with_tasks blk
                 ((λ x, if String.eqb (Task.id x) tid then applyPatch x patch else x)
                    <$> tasks blk)]> slots).

Definition removeTask (i : nat) (tid : string) (slots : list Block)
  : option (list Block) :=
  blk ← slots !! i;
  Some (<[i := with_tasks blk
                 (filter (λ x, Task.id x ≠ tid) (tasks blk))]> slots).

(** ** The range splicer *)

(** The inner [while (j < slots.length)] loop, run on [slots.slice(i)].
    It returns the blocks from index [j] on (what the final [for] loop
    copies), [rightRemainderSpan] and [rightRemainderTasks]. *)
Fixpoint scanRight (end_ : Z) (rest : list Block) : list Block * Z * list Task.t :=
  match rest with
  | [] => ([], 0, [])
  | cur :: rest' =>
      let curEnd := start cur + span cur in
      if end_ <=? curEnd then
        let over := curEnd - end_ in
        if 0 <? over then (rest', over, tasks cur) else (rest', 0, [])
      else scanRight end_ rest'
  end.

(** [replaceRangeWithSingleBlock(slots, start, span, tasksForNewBlock)].
    The outer loop pushes the blocks that do not overlap the range and
    returns from inside the loop at the first block that does. *)
Fixpoint replaceRangeWithSingleBlock (slots : list Block) (rstart rspan : Z)
    (tasksForNewBlock : list Task.t) : list Block :=
  let end_ := rstart + rspan in
  match slots with
  | [] => []
  | s :: rest =>
      let sStart := start s in
      let sEnd := start s + span s in
      if (sEnd <=? rstart) || (end_ <=? sStart) then
        with_tasks s (tasks s)
          :: replaceRangeWithSingleBlock rest rstart rspan tasksForNewBlock
      else
        let left :=
          if sStart <? rstart
          then [ {| start := sStart; span := rstart - sStart; tasks := tasks s |} ]
          else [] in
        let '(after, rightRemainderSpan, rightRemainderTasks) :=
          scanRight end_ slots in
        left
        ++ [ {| start := rstart; span := rspan; tasks := tasksForNewBlock |} ]
        ++ (if 0 <? rightRemainderSpan
            then [ {| start := end_; span := rightRemainderSpan;
                      tasks := rightRemainderTasks |} ]
            else [])
        ++ ((λ blk, with_tasks blk (tasks blk)) <$> after)
  end.

(** ** Free text: strings of UTF-16 code units *)

Definition ustring := list N.

(** A literal of code units below 256. *)
Definition ustr (s : string) : ustring := N_of_ascii <$> list_ascii_of_string s.

Open Scope N_scope.

(** ECMAScript [WhiteSpace] and [LineTerminator]: what [trim] strips,
    what [\s] matches and what [parseInt] skips. *)
Definition isWhiteSpace (c : N) : bool :=
  ((9 <=? c) && (c <=? 13)) || (c =? 32) || (c =? 160) || (c =? 5760)
  || ((8192 <=? c) && (c <=? 8202)) || (c =? 8232) || (c =? 8233)
  || (c =? 8239) || (c =? 8287) || (c =? 12288) || (c =? 65279).

(** [\d] *)
Definition isDigit (c : N) : bool := (48 <=? c) && (c <=? 57).

Fixpoint trimStart (s : ustring) : ustring :=
  match s with
  | c :: s' => if isWhiteSpace c then trimStart s' else s
  | [] => []
  end.

Definition trimEnd (s : ustring) : ustring := reverse (trimStart (reverse s)).

Definition trim (s : ustring) : ustring := trimEnd (trimStart s).

(** [toLowerCase], exact on the code units below 128.  Other code units
    are kept: none of them lower-cases to a letter of "am" / "pm", a
    digit, a colon or white space, and all the parser does with them
    afterwards is to turn them into spaces. *)
Definition toLowerCase (s : ustring) : ustring :=
  (λ c, if (65 <=? c) && (c <=? 90) then c + 32 else c) <$> s.

Definition endsWith (s suffix : ustring) : bool :=
  bool_decide (drop (length s - length suffix) s = suffix).

(** [str.replace(/am$/, "")] and [str.replace(/pm$/, "")] *)
Definition removeSuffix (suffix s : ustring) : ustring :=
  if endsWith s suffix then take (length s - length suffix) s else s.

(** [str.replace(/[^\d:]/g, " ")] *)
Definition blankNonDigitColon (s : ustring) : ustring :=
  (λ c, if isDigit c || (c =? 58) then c else 32) <$> s.

(** [str.replace(/\s+/g, " ")]; [inRun] tells that the previous code
    unit was white space. *)
Fixpoint collapseSpaces (inRun : bool) (s : ustring) : ustring :=
  match s with
  | [] => []
  | c :: s' =>
      if isWhiteSpace c
      then (if inRun then collapseSpaces true s' else 32 :: collapseSpaces true s')
      else c :: collapseSpaces false s'
  end.

(** [str.split(sep)] for a separator of one code unit. *)
Fixpoint splitOn (sep : N) (s : ustring) : list ustring :=
  match s with
  | [] => [[]]
  | c :: s' =>
      if c =? sep then [] :: splitOn sep s'
      else match splitOn sep s' with
           | p :: ps => (c :: p) :: ps
           | [] => [[c]]
           end
  end.

Definition digitsBetween (lo hi : nat) (s : ustring) : bool :=
  forallb isDigit s && bool_decide (lo ≤ length s ≤ hi)%nat.

(** [/^\d{1,2}:\d{1,2}$/.test(str)] *)
Definition isHourColonMinute (str : ustring) : bool :=
  match splitOn 58 str with
  | [a; b] => digitsBetween 1 2 a && digitsBetween 1 2 b
  | _ => false
  end.

(** [/^\d{3,4}$/.test(str)] *)
Definition isCompactDigits (str : ustring) : bool := digitsBetween 3 4 str.

Close Scope N_scope.

(** The digits read so far by [parseInt]; [None] when there is none. *)
Fixpoint digitsPrefix (acc : option Z) (s : ustring) : option Z :=
  match s with
  | c :: s' =>
      if isDigit c
      then digitsPrefix (Some (10 * default 0 acc + (Z.of_N c - 48))) s'
      else acc
  | [] => acc
  end.

(** [parseInt(x, 10)]; [None] is [NaN]. *)
Definition parseInt (x : ustring) : option Z :=
  match trimStart x with
  | 45%N :: r => Z.opp <$> digitsPrefix None r
  | 43%N :: r => digitsPrefix None r
  | r => digitsPrefix None r
  end.

(** [parseTimeToMinutes(s)]; [None] is [NaN]. *)
Definition parseTimeToMinutes (s : ustring) : option Z :=
  if bool_decide (s = []) then None
  else
    let str := toLowerCase (trim s) in
    let isAM := endsWith str (ustr "am") in
    let str := if isAM then trim (removeSuffix (ustr "am") str) else str in
    let isPM := endsWith str (ustr "pm") in
    let str := if isPM then trim (removeSuffix (ustr "pm") str) else str in
    let str := trim (collapseSpaces false (blankNonDigitColon str)) in
    let '(h, m) :=
      if isHourColonMinute str then
        let nums := parseInt <$> splitOn 58 str in
        (mjoin (nums !! 0%nat), mjoin (nums !! 1%nat))
      else if isCompactDigits str then
        let n := parseInt str in
        if (length str <=? 2)%nat then (n, Some 0)
        else ((λ n, n `div` 100) <$> n, (λ n, n `rem` 100) <$> n)
      else
        let parts := splitOn 32 str in
        if (length parts =? 2)%nat
        then (parts !! 0%nat ≫= parseInt, parts !! 1%nat ≫= parseInt)
        else if (length parts =? 1)%nat
        then (parts !! 0%nat ≫= parseInt, Some 0)
        else (Some 0, Some 0) in
    h ← h;
    m ← m;
    let h := if isPM && (h <? 12) then h + 12 else h in
    let h := if isAM && (h =? 12) then 0 else h in
    let h := Z.max 0 (Z.min 23 h) in
    let m := Z.max 0 (Z.min 59 m) in
    Some (h * 60 + m).

(** [raw.split(/-|–|~|to/i)]: the separators are the hyphen-minus, the
    en dash (U+2013), the tilde and "to" in any letter case. *)
Definition isRangeSeparator (c : N) : bool :=
  ((c =? 45) || (c =? 8211) || (c =? 126))%N.

Fixpoint splitRange (raw : ustring) : list ustring :=
  let push c (ps : list ustring) :=
    match ps with
    | p :: ps' => (c :: p) :: ps'
    | [] => [[c]]
    end in
  match raw with
  | [] => [[]]
  | c :: raw' =>
      if isRangeSeparator c then [] :: splitRange raw'
      else
        match raw' with
        | c2 :: raw'' =>
            if (((c =? 116) || (c =? 84)) && ((c2 =? 111) || (c2 =? 79)))%N
            then [] :: splitRange raw''
            else push c (splitRange raw')
        | [] => push c (splitRange raw')
        end
  end.

(** ** The weekly schedule and the component state *)

Record Planner := mkPlanner {
  schedule : gmap string (list Block);
  selectedDay : nat;
  draws : nat  (* calls of [Math.random] made so far *)
}.

(** [DAYS[selectedDay]] used as a property key: an index outside the
    array gives [undefined], which as a key is the string "undefined". *)
Definition dayKey (d : nat) : string := nth d DAYS "undefined"%string.

Definition with_schedule (st : Planner) (sch : gmap string (list Block)) : Planner :=
  {| schedule := sch; selectedDay := selectedDay st; draws := draws st |}.

(** [setDaySlots(updater)] with a function: every updater of the
    component reads [slots.length], [slots[i]] or spreads [slots] first,
    so a missing day ([undefined]) throws. *)
Definition setDaySlots (updater : list Block → option (list Block))
    (st : Planner) : option Planner :=
  let key := dayKey (selectedDay st) in
  slots ← schedule st !! key;
  next ← updater slots;
  Some (with_schedule st (<[key := next]> (schedule st))).

(** [setDaySlots(value)] with a value that is not a function. *)
Definition setDaySlotsTo (value : list Block) (st : Planner) : Planner :=
  with_schedule st (<[dayKey (selectedDay st) := value]> (schedule st)).

(** [for (const d of DAYS) init[d] = defaultDay()] *)
Definition defaultSchedule : gmap string (list Block) :=
  foldl (λ init d, <[d := defaultDay]> init) ∅ DAYS.

(** The initialiser of the [schedule] state.  [saved] is what
    [localStorage.getItem] returned ([None] is [null]); [JSON_parse] is
    the built-in, [None] when it throws.  There is no handler around
    the call. *)
Definition loadSchedule (JSON_parse : string → option (gmap string (list Block)))
    (saved : option string) : option (gmap string (list Block)) :=
  match saved with
  | Some s => if bool_decide (s ≠ ""%string) then JSON_parse s else Some defaultSchedule
  | None => Some defaultSchedule
  end.

Section Random.

(** The [k]-th value of [Math.random().toString(36).slice(2, 9)]. *)
Variable uid_at : nat → string.

(** [arr.map((t) => ({ ...t, id: <random> }))], from draw [n] on. *)
Fixpoint makeCopies (arr : list Task.t) (n : nat) : list Task.t * nat :=
  match arr with
  | [] => ([], n)
  | x :: arr' =>
      let '(copies, n') := makeCopies arr' (S n) in
      (Task.with_id x (uid_at n) :: copies, n')
  end.

(** The [reshaped.map(...)] of the append mode. *)
Fixpoint appendCopies (rstart rspan : Z) (srcTasks : list Task.t)
    (reshaped : list Block) (n : nat) : list Block * nat :=
  match reshaped with
  | [] => ([], n)
  | blk :: rest =>
      if (start blk =? rstart) && (span blk =? rspan) then
        let '(copies, n1) := makeCopies srcTasks n in
        let '(rest', n2) := appendCopies rstart rspan srcTasks rest n1 in
        (with_tasks blk (tasks blk ++ copies) :: rest', n2)
      else
        let '(rest', n2) := appendCopies rstart rspan srcTasks rest n in
        (blk :: rest', n2)
  end.

(** One turn of the [for (let d = 0; d < DAYS.length; d++)] loop. *)
Definition applyBlockToDay (mode : string) (srcBlock : Block)
    (slots : list Block) (n : nat) : list Block * nat :=
  let '(initialTasks, n1) :=
    if String.eqb mode "replace" then makeCopies (tasks srcBlock) n else ([], n) in
  let reshaped :=
    replaceRangeWithSingleBlock slots (start srcBlock) (span srcBlock) initialTasks in
  if String.eqb mode "append"
  then appendCopies (start srcBlock) (span srcBlock) (tasks srcBlock) reshaped n1
  else (reshaped, n1).

(** The loop itself: it reads the days from [prev] and writes them to
    [next]. *)
Fixpoint applyBlockToDays (mode : string) (srcBlock : Block)
    (prev : gmap string (list Block)) (days : list string)
    (next : gmap string (list Block)) (n : nat)
  : option (gmap string (list Block) * nat) :=
  match days with
  | [] => Some (next, n)
  | dayName :: days' =>
      slots ← prev !! dayName;
      let '(reshaped, n') := applyBlockToDay mode srcBlock slots n in
      applyBlockToDays mode srcBlock prev days' (<[dayName := reshaped]> next) n'
  end.

(** [applyBlockToAllDays(blockIndex, mode)] *)
Definition applyBlockToAllDays (blockIndex : nat) (mode : string)
    (st : Planner) : option Planner :=
  let prev := schedule st in
  let srcDay := dayKey (selectedDay st) in
  srcSlots ← prev !! srcDay;
  match srcSlots !! blockIndex with
  | None => Some st
  | Some srcBlock =>
      '(next, n) ← applyBlockToDays mode srcBlock prev DAYS prev (draws st);
      Some {| schedule := next; selectedDay := selectedDay st; draws := n |}
  end.

(** [resetSelectedDay()]; [confirmed] is the answer to the dialog. *)
Definition resetSelectedDay (confirmed : bool) (st : Planner) : Planner :=
  if confirmed then setDaySlotsTo defaultDay st else st.

(** [addCustomBlock()]; [raw] is what the prompt returned ([None] is
    [null]).  The result is the alert shown, if any, and the state. *)
Definition addCustomBlock (raw : option ustring) (st : Planner)
  : option string * option Planner :=
  match raw with
  | None | Some [] => (None, Some st)
  | Some raw =>
      match splitRange raw with
      | part0 :: part1 :: _ =>
          match parseTimeToMinutes part0, parseTimeToMinutes part1 with
          | Some startMin, Some endMin =>
              if endMin <=? startMin
              then (Some "End time must be after start time."%string, Some st)
              else
                let s := Z.max 0 (Z.min (MINS_IN_DAY - 1) startMin) in
                let e := Z.max 1 (Z.min MINS_IN_DAY endMin) in
                let span := e - s in
                (None,
                 setDaySlots
                   (λ slots, Some (replaceRangeWithSingleBlock slots s span [])) st)
          | _, _ =>
              (Some "Could not parse the time. Try formats like 9:30, 10, 1:05pm."%string,
               Some st)
          end
      | _ =>
          (Some "Please enter a start and end time, like 9:30 - 10:00."%string, Some st)
      end
  end.

(** ** User actions *)

Inductive Op :=
  | OpSelectDay (d : nat)
  | OpMergeSlots (i : nat)
  | OpUnmergeSlot (i : nat)
  | OpAddTask (i : nat) (text : option string)
  | OpUpdateTask (i : nat) (tid : string) (patch : TaskPatch)
  | OpRemoveTask (i : nat) (tid : string)
  | OpReplaceRange (rstart rspan : Z) (newTasks : list Task.t)
  | OpApplyBlockToAllDays (blockIndex : nat) (mode : string)
  | OpResetSelectedDay (confirmed : bool)
  | OpAddCustomBlock (raw : option ustring).

Definition step (op : Op) (st : Planner) : option Planner :=
  match op with
  | OpSelectDay d =>
      Some {| schedule := schedule st; selectedDay := d; draws := draws st |}
  | OpMergeSlots i => setDaySlots (mergeSlots i) st
  | OpUnmergeSlot i => setDaySlots (unmergeSlot i) st
  | OpAddTask i text =>
      match text with
      | None | Some EmptyString => Some st
      | Some text =>
          st' ← setDaySlots (addTask i (uid_at (draws st)) text) st;
          Some {| schedule := schedule st'; selectedDay := selectedDay st';
                  draws := S (draws st') |}
      end
  | OpUpdateTask i tid patch => setDaySlots (updateTask i tid patch) st
  | OpRemoveTask i tid => setDaySlots (removeTask i tid) st
  | OpReplaceRange rstart rspan newTasks =>
      setDaySlots
        (λ slots, Some (replaceRangeWithSingleBlock slots rstart rspan newTasks)) st
  | OpApplyBlockToAllDays blockIndex mode => applyBlockToAllDays blockIndex mode st
  | OpResetSelectedDay confirmed => Some (resetSelectedDay confirmed st)
  | OpAddCustomBlock raw => (addCustomBlock raw st).2
  end.

Fixpoint run (ops : list Op) (st : Planner) : option Planner :=
  match ops with
  | [] => Some st
  | op :: ops' => st' ← step op st; run ops' st'
  end.

End Random.

(** The state after mounting with nothing stored. *)
Definition initialPlanner (today : nat) : Planner :=
  {| schedule := defaultSchedule; selectedDay := today; draws := 0 |}.

(** ** The partition invariants *)

Definition endOf (b : Block) : Z := start b + span b.

(** 1. sorted ascending by start *)
Definition sorted_by_start (p : list Block) : Prop :=
  ∀ (i j : nat) a b, p !! i = Some a → p !! j = Some b → (i < j)%nat → start a ≤ start b.

(** 2. consecutive blocks are contiguous *)
Definition contiguous (p : list Block) : Prop :=
  ∀ (i : nat) a b, p !! i = Some a → p !! S i = Some b → start a + span a = start b.

(** 3. the blocks cover exactly [0, 1440) *)
Definition covers_day (p : list Block) : Prop :=
  (∃ b, head p = Some b ∧ start b = 0)
  ∧ (∃ b, last p = Some b ∧ start b + span b = 1440).

(** 4. every span is at least one minute *)
Definition positive_spans (p : list Block) : Prop :=
  ∀ b, b ∈ p → 1 ≤ span b.

Definition valid_partition (p : list Block) : Prop :=
  sorted_by_start p ∧ contiguous p ∧ covers_day p ∧ positive_spans p.

(** The same invariants read along the list: [p] tiles [lo, hi) with
    blocks of positive span. *)
Fixpoint chain (lo hi : Z) (p : list Block) : Prop :=
  match p with
  | [] => lo = hi
  | b :: p' => start b = lo ∧ 1 ≤ span b ∧ chain (lo + span b) hi p'
  end.

(** A block overlaps the half-open range [s, e). *)
Definition overlaps (s e : Z) (b : Block) : Prop := start b < e ∧ s < endOf b.

(** The test of the append mode: the block has exactly this range. *)
Definition at_range (s sp : Z) (b : Block) : Prop := start b = s ∧ span b = sp.

Global Instance at_range_dec s sp b : Decision (at_range s sp b).
Proof. unfold at_range. apply _. Defined.

(** The remainders the splicer keeps of the first and of the last
    overlapping block, when there is something left of them. *)
Definition leftRemainder (first : Block) (s : Z) : list Block :=
  if start first <? s
  then [ {| start := start first; span := s - start first; tasks := tasks first |} ]
  else [].

Definition rightRemainder (lst : Block) (e : Z) : list Block :=
  if e <? endOf lst
  then [ {| start := e; span := endOf lst - e; tasks := tasks lst |} ]
  else [].

(** [run] is the run of blocks of [p] that overlap [s, s + sp), between
    the blocks [before] that end by [s] and the blocks [after] that
    start from [s + sp] on. *)
Record overlap_run (p : list Block) (s sp : Z)
    (before run after : list Block) (first lst : Block) : Prop := {
  run_split : p = before ++ run ++ after;
  run_head : head run = Some first;
  run_last : last run = Some lst;
  run_before : Forall (λ b, endOf b ≤ s) before;
  run_overlaps : Forall (overlaps s (s + sp)) run;
  run_after : Forall (λ b, s + sp ≤ start b) after
}.

(** All the tasks of a partition. *)
Definition all_tasks (p : list Block) : list Task.t := mjoin (tasks <$> p).

(** Every partition stored in the schedule is valid and the seven days
    are there. *)
Definition valid_schedule (sch : gmap string (list Block)) : Prop :=
  (∀ d, d ∈ DAYS → is_Some (sch !! d))
  ∧ (∀ d p, sch !! d = Some p → valid_partition p).

(** What the partition invariant asks of a direct call of the splicer. *)
Definition op_ok (op : Op) : Prop :=
  match op with
  | OpReplaceRange rstart rspan _ => 0 ≤ rstart ∧ 1 ≤ rspan ∧ rstart + rspan ≤ 1440
  | _ => True
  end.

(** The number of draws one day of the propagation loop makes on a
    valid day. *)
Definition drawsPerDay (mode : string) (srcBlock : Block) : nat :=
  if String.eqb mode "replace" then length (tasks srcBlock)
  else if String.eqb mode "append" then length (tasks srcBlock)
  else 0%nat.

(** ** Sample data for the worked examples *)

(** An id source whose draws are pairwise distinct: "a", "b", "c", ... *)
Definition letter_ids (n : nat) : string :=
  String (ascii_of_nat (97 + n)) EmptyString.

(** An id source that repeats itself. *)
Definition constant_ids (n : nat) : string := "k3x9q2a"%string.

Definition gymTask : Task.t :=
  {| Task.id := "g000001"; Task.text := "gym"; Task.done := false |}.

Definition callMomTask : Task.t :=
  {| Task.id := "c000001"; Task.text := "call mom"; Task.done := false |}.

(** A day with a block [90, 150) that carries the tasks [ts]. *)
Definition dayWithBlock (ts : list Task.t) : list Block :=
  [ {| start := 0; span := 90; tasks := [] |};
    {| start := 90; span := 60; tasks := ts |};
    {| start := 150; span := 1290; tasks := [] |} ].

(** Monday is selected and has "gym" in [90, 150); Tuesday has
    "call mom" in a block of exactly that range; the other days are
    default days. *)
Definition gymWeek : Planner :=
  {| schedule :=
       <["Tuesday"%string := dayWithBlock [callMomTask]]>
         (<["Monday"%string := dayWithBlock [gymTask]]> defaultSchedule);
     selectedDay := 1;
     draws := 0 |}.

(** A session of user actions on Monday and Tuesday. *)
Definition sampleSession : list Op :=
  [ OpMergeSlots 0; OpMergeSlots 0; OpUnmergeSlot 0;
    OpAddTask 1 (Some "A"%string);
    OpReplaceRange 30 120 [];
    OpApplyBlockToAllDays 1 "replace";
    OpSelectDay 2;
    OpAddCustomBlock (Some (ustr "9:30 - 10"));
    OpAddTask 10 (Some "gym"%string);
    OpApplyBlockToAllDays 10 "append";
    OpUpdateTask 10 "b"
      {| patch_id := None; patch_text := None; patch_done := Some true |};
    OpRemoveTask 10 "b";
    OpMergeSlots 40;
    OpResetSelectedDay true ].

(** A session on Monday that leaves one task in two blocks: the task is
    added to the merged block [0, 240), and two custom ranges strictly
    inside that block keep a copy of its tasks on both remainders. *)
Definition duplicatingSession : list Op :=
  [ OpMergeSlots 0; OpMergeSlots 0; OpMergeSlots 0;
    OpAddTask 0 (Some "A"%string);
    OpAddCustomBlock (Some (ustr "1:00 - 2:00"));
    OpAddCustomBlock (Some (ustr "3:00 - 4:00")) ].

Definition sharedTask : Task.t :=
  {| Task.id := "a"; Task.text := "A"; Task.done := false |}.

(** Monday after that session. *)
Definition sharedTaskDay : list Block :=
  [ {| start := 0; span := 60; tasks := [sharedTask] |};
    {| start := 60; span := 60; tasks := [] |};
    {| start := 120; span := 60; tasks := [sharedTask] |};
    {| start := 180; span := 60; tasks := [] |} ]
  ++ drop 4 defaultDay.

(** What an updater that reads block [i] needs in order not to throw. *)
Definition op_enabled (st : Planner) (op : Op) : Prop :=
  match op with
  | OpAddTask i (Some (String _ _)) | OpUpdateTask i _ _ | OpRemoveTask i _ =>
      ∃ p, schedule st !! dayKey (selectedDay st) = Some p ∧ (i < length p)%nat
  | _ => True
  end.

(** ** Minute labels and the compact view *)

(** [String(n)] and [`${n}`] for an integer [n]: its decimal digits, with
    a minus sign when negative. *)
Definition numberToString (n : Z) : ustring :=
  ustr (NilZero.string_of_int (Z.to_int n)).

(** [s.padStart(targetLength, pad)] for a pad string of one code unit. *)
Definition padStart (targetLength : nat) (pad : N) (s : ustring) : ustring :=
  replicate (targetLength - length s) pad ++ s.

(** [minsToLabel(m)]; [%] is the remainder that takes the sign of the
    dividend. *)
Definition minsToLabel (m : Z) : ustring :=
  let mm := ((m `rem` MINS_IN_DAY) + MINS_IN_DAY) `rem` MINS_IN_DAY in
  let h24 := mm `div` 60 in
  let min := mm `rem` 60 in
  let h12 := if h24 `rem` 12 =? 0 then 12 else h24 `rem` 12 in
  let ampm := if h24 <? 12 then ustr "AM" else ustr "PM" in
  let minStr := padStart 2 48 (numberToString min) in
  numberToString h12 ++ ustr ":" ++ minStr ++ ustr " " ++ ampm.

(** [arr.findIndex(f)]; [None] is [-1]. *)
Fixpoint findIndex {A} (f : A → bool) (arr : list A) : option nat :=
  match arr with
  | [] => None
  | x :: arr' => if f x then Some 0%nat else S <$> findIndex f arr'
  end.

(** The callback of the first [findIndex] of [findCurrentBlockIndex]. *)
Definition isCurrentBlock (m : Z) (s : Block) : bool :=
  let start_ := start s `rem` MINS_IN_DAY in
  let end_ := (start s + span s) `rem` MINS_IN_DAY in
  if MINS_IN_DAY <=? span s then true
  else if start_ <? end_ then (start_ <=? m) && (m <? end_)
  else (start_ <=? m) || (m <? end_).

(** [findCurrentBlockIndex(slots, isToday)]; [currentMinute] is
    [now.getHours() * 60 + now.getMinutes()]. *)
Definition findCurrentBlockIndex (currentMinute : Z) (slots : list Block)
    (isToday : bool) : nat :=
  let m := if isToday then currentMinute `rem` MINS_IN_DAY else 0 in
  match findIndex (isCurrentBlock m) slots with
  | Some idx => idx
  | None =>
      match findIndex (λ s, m <=? start s) slots with
      | Some fallback => fallback
      | None => Z.to_nat (Z.max 0 (Z.of_nat (length slots) - 1))
      end
  end.

(** [arr.slice(from, to)] for non-negative indices. *)
Definition slice {A} (arr : list A) (from to : nat) : list A :=
  take (to - from) (drop from arr).

Record CompactItem := mkCompactItem {
  startLabel : ustring;
  endLabel : ustring;
  line1 : ustring;
  line2 : ustring;
  moreCount : Z
}.

(** [s.tasks.map((t) => t.text.trim()).filter(Boolean)] *)
Definition taskTexts (s : Block) : list ustring :=
  filter (λ x, x ≠ []) ((λ t, trim (ustr (Task.text t))) <$> tasks s).

(** The callback of [items.map] in [getCompactWindow]. *)
Definition compactItem (s : Block) : CompactItem :=
  let end_ := (start s + span s) `rem` MINS_IN_DAY in
  let texts := taskTexts s in
  {| startLabel := minsToLabel (start s);
     endLabel := minsToLabel end_;
     line1 :=
       match texts !! 0%nat with
       | Some x => x
       | None => if (length texts =? 0)%nat then ustr "No tasks" else []
       end;
     line2 := if (1 <? length texts)%nat then default [] (texts !! 1%nat) else [];
     moreCount := Z.max 0 (Z.of_nat (length texts) - 2) |}.

(** [getCompactWindow()]; [todayIdx] is [now.getDay()].  A missing
    selected day throws at [slots.findIndex]. *)
Definition getCompactWindow (currentMinute : Z) (todayIdx : nat) (st : Planner)
  : option (list CompactItem) :=
  sourceSlots ← schedule st !! dayKey (selectedDay st);
  let idx :=
    findCurrentBlockIndex currentMinute sourceSlots
      (bool_decide (selectedDay st = todayIdx)) in
  let items := slice sourceSlots idx (Nat.min (idx + 3) (length sourceSlots)) in
  Some (compactItem <$> items).

(** ** The timer buffer (CategoryBar) *)

(** [pad2(n)] *)
Definition pad2 (n : Z) : ustring :=
  if n <? 10 then ustr "0" ++ numberToString n else numberToString n.

(** [clamp(n, lo, hi)] *)
Definition clamp (n lo hi : Z) : Z := Z.min (Z.max n lo) hi.

Definition LIMIT_SEC : Z := 23 * 3600 + 59 * 60 + 59.

(** [parseInt(x, 10) || 0]: [NaN] and [0] both give [0]. *)
Definition parseIntOrZero (x : ustring) : Z := default 0 (parseInt x).

(** [bufToSec(b)] *)
Definition bufToSec (b : ustring) : Z :=
  let h := parseIntOrZero (slice b 0 2) in
  let m := parseIntOrZero (slice b 2 4) in
  let s := parseIntOrZero (slice b 4 6) in
  clamp (h * 3600 + m * 60 + s) 0 LIMIT_SEC.

(** [n | 0] for an integer [n]: the 32-bit two's complement value. *)
Definition toInt32 (n : Z) : Z := (n + 2 ^ 31) `mod` 2 ^ 32 - 2 ^ 31.

(** [secToBuf(sec)] *)
Definition secToBuf (sec : Z) : ustring :=
  let t := clamp (toInt32 sec) 0 LIMIT_SEC in
  let h := t `div` 3600 in
  let m := (t `rem` 3600) `div` 60 in
  let s := t `rem` 60 in
  pad2 h ++ pad2 m ++ pad2 s.

(** [msToBuf(ms)] and [bufToMs(b)], for an integer number of
    milliseconds. *)
Definition msToBuf (ms : Z) : ustring := secToBuf (ms `div` 1000).

Definition bufToMs (b : ustring) : Z := bufToSec b * 1000.

(** [clampCaret(i)] *)
Definition clampCaret (i : Z) : Z := Z.max 0 (Z.min 6 i).

(** [s.padEnd(targetLength, pad)] for a pad string of one code unit. *)
Definition padEnd (targetLength : nat) (pad : N) (s : ustring) : ustring :=
  s ++ replicate (targetLength - length s) pad.

(** The edit buffer of the timer and its caret. *)
Record TimerEdit := mkTimerEdit { buf : ustring; caret : nat }.

(** [insertDigit(d)]; [d] is the string inserted at the caret. *)
Definition insertDigit (d : ustring) (e : TimerEdit) : TimerEdit :=
  let left := slice (buf e) 0 (caret e) in
  let right := drop (caret e) (buf e) in
  let next := padEnd 6 48 (slice (left ++ d ++ right) 0 6) in
  let clamped := secToBuf (bufToSec next) in
  {| buf := clamped; caret := Z.to_nat (clampCaret (Z.of_nat (caret e) + 1)) |}.

(** [backspace()] *)
Definition backspace (e : TimerEdit) : TimerEdit :=
  if (caret e =? 0)%nat then e
  else
    let left := slice (buf e) 0 (caret e - 1) in
    let right := drop (caret e) (buf e) in
    let shifted := slice (left ++ right ++ ustr "0") 0 6 in
    let clamped := secToBuf (bufToSec shifted) in
    {| buf := clamped; caret := Z.to_nat (clampCaret (Z.of_nat (caret e) - 1)) |}.

(** [delAt()] *)
Definition delAt (e : TimerEdit) : TimerEdit :=
  if (6 <=? caret e)%nat then e
  else
    let left := slice (buf e) 0 (caret e) in
    let right := drop (S (caret e)) (buf e) in
    let shifted := slice (left ++ right ++ ustr "0") 0 6 in
    {| buf := secToBuf (bufToSec shifted); caret := caret e |}.

(** [adjustBy(deltaSec)] *)
Definition adjustBy (deltaSec : Z) (e : TimerEdit) : TimerEdit :=
  {| buf := secToBuf (clamp (bufToSec (buf e) + deltaSec) 0 LIMIT_SEC);
     caret := caret e |}.

(** The edit buffer is six digits that read as a time of day and write
    back unchanged, and the caret is on one of the seven positions
    around them. *)
Definition timer_edit_ok (e : TimerEdit) : Prop :=
  length (buf e) = 6%nat
  ∧ Forall (λ c, isDigit c = true) (buf e)
  ∧ secToBuf (bufToSec (buf e)) = buf e
  ∧ (caret e ≤ 6)%nat.

(** Monday's week with Friday missing, as a damaged snapshot could
    have it. *)
Definition weekWithoutFriday : Planner :=
  {| schedule := delete "Friday"%string (schedule gymWeek);
     selectedDay := 1;
     draws := 0 |}.

(** The timer buffer after a reset. *)
Definition clearedTimer : TimerEdit := {| buf := ustr "000000"; caret := 0 |}.

(** * Properties *)

(** ** Chains *)

Lemma with_tasks_same (b : Block) : with_tasks b (tasks b) = b.
Proof. by destruct b. Qed.

Lemma copy_blocks_same (p : list Block) :
  (λ blk, with_tasks blk (tasks blk)) <$> p = p.
Proof. induction p as [|b p IH]; [done|]. by rewrite fmap_cons, with_tasks_same, IH. Qed.

Lemma chain_app lo hi p q :
  chain lo hi (p ++ q) ↔ ∃ mid, chain lo mid p ∧ chain mid hi q.
Proof.
  revert lo. induction p as [|b p IH]; intros lo; simpl.
  - split; [intros H; by exists lo | intros (mid & -> & H); done].
  - rewrite IH. split.
    + intros (H1 & H2 & mid & H3 & H4). exists mid. tauto.
    + intros (mid & (H1 & H2 & H3) & H4). eauto.
Qed.

Lemma chain_le lo hi p : chain lo hi p → lo ≤ hi.
Proof.
  revert lo. induction p as [|b p IH]; intros lo; simpl; [lia|].
  intros (_ & H1 & H2). apply IH in H2. lia.
Qed.

Lemma chain_bounds lo hi p b :
  chain lo hi p → b ∈ p → lo ≤ start b ∧ 1 ≤ span b ∧ endOf b ≤ hi.
Proof.
  unfold endOf. revert lo. induction p as [|c p IH]; intros lo Hc Hin.
  - by apply elem_of_nil in Hin.
  - simpl in Hc. destruct Hc as (H1 & H2 & H3).
    apply elem_of_cons in Hin as [->|Hin].
    + apply chain_le in H3. lia.
    + destruct (IH _ H3 Hin). lia.
Qed.

Lemma chain_last lo hi p b : chain lo hi p → last p = Some b → endOf b = hi.
Proof.
  unfold endOf. revert lo. induction p as [|c p IH]; intros lo; [done|].
  destruct p as [|c' p].
  - simpl. intros (H1 & _ & H2) [= ->]. lia.
  - intros (_ & _ & H) Hl. by apply (IH _ H).
Qed.

Lemma chain_lookup_lt lo hi p (i j : nat) a b :
  chain lo hi p → p !! i = Some a → p !! j = Some b → (i < j)%nat →
  endOf a ≤ start b.
Proof.
  unfold endOf. revert lo i j. induction p as [|c p IH]; intros lo i j Hc Hi Hj Hij; [done|].
  simpl in Hc. destruct Hc as (H1 & H2 & H3).
  destruct j as [|j]; [lia|]. simpl in Hj.
  destruct i as [|i]; simpl in Hi.
  - injection Hi as ->. apply list_elem_of_lookup_2 in Hj.
    destruct (chain_bounds _ _ _ _ H3 Hj). lia.
  - apply (IH _ i j H3 Hi Hj). lia.
Qed.

Lemma chain_lookup_succ lo hi p (i : nat) a b :
  chain lo hi p → p !! i = Some a → p !! S i = Some b → endOf a = start b.
Proof.
  unfold endOf. revert lo i. induction p as [|c p IH]; intros lo i Hc Hi Hj; [done|].
  simpl in Hc. destruct Hc as (H1 & H2 & H3). simpl in Hj.
  destruct i as [|i]; simpl in Hi.
  - injection Hi as ->. destruct p as [|c' p]; [done|].
    simpl in *. injection Hj as ->. lia.
  - by apply (IH _ i H3).
Qed.

Lemma valid_partition_chain p : valid_partition p ↔ chain 0 1440 p.
Proof.
  split.
  - intros (_ & Hcont & ((b0 & Hb0 & Hs0) & (bl & Hbl & Hel)) & Hpos).
    assert (∀ q lo, contiguous q → positive_spans q →
              (∃ b, head q = Some b ∧ start b = lo) →
              (∃ b, last q = Some b ∧ start b + span b = 1440) →
              chain lo 1440 q) as Haux; [|apply Haux; eauto].
    clear. induction q as [|c q IH]; intros lo Hcont Hpos (b0 & Hb0 & Hs0) (bl & Hbl & Hel);
      [done|].
    assert (b0 = c) as -> by (simpl in Hb0; congruence).
    simpl. split; [done|].
    split; [apply Hpos; left|].
    destruct q as [|c' q].
    + assert (bl = c) as -> by (simpl in Hbl; congruence). simpl. lia.
    + apply IH.
      * intros i a b Ha Hb. apply (Hcont (S i) a b); done.
      * intros b Hb. apply Hpos. by right.
      * exists c'. split; [done|]. symmetry. subst lo. by apply (Hcont 0%nat c c').
      * exists bl. done.
  - intros Hc. repeat split.
    + intros i j a b Hi Hj Hij.
      pose proof (chain_lookup_lt _ _ _ _ _ _ _ Hc Hi Hj Hij) as H.
      apply list_elem_of_lookup_2 in Hi. destruct (chain_bounds _ _ _ _ Hc Hi).
      unfold endOf in *. lia.
    + intros i a b Hi Hj. apply (chain_lookup_succ _ _ _ _ _ _ Hc Hi Hj).
    + destruct p as [|b p]; [done|]. exists b. split; [done|]. by destruct Hc.
    + destruct (last p) as [b|] eqn:Hl.
      * exists b. split; [done|]. apply (chain_last _ _ _ _ Hc Hl).
      * apply last_None in Hl. by subst p.
    + intros b Hb. by destruct (chain_bounds _ _ _ _ Hc Hb) as (_ & ? & _).
Qed.

Lemma chain_same_shape lo hi p q :
  (λ b, (start b, span b)) <$> p = (λ b, (start b, span b)) <$> q →
  chain lo hi p → chain lo hi q.
Proof.
  revert lo q. induction p as [|b p IH]; intros lo [|c q]; simpl; try done.
  intros [= H1 H2 H3] (H4 & H5 & H6). rewrite <- H1, <- H2.
  split; [done|]. split; [done|]. by apply IH.
Qed.

Lemma defaultDay_chain : chain 0 1440 defaultDay.
Proof. vm_compute. repeat split; discriminate. Qed.

Lemma defaultDay_valid : valid_partition defaultDay.
Proof. apply valid_partition_chain, defaultDay_chain. Qed.

(** ** The range splicer *)

Lemma scanRight_spec e q lo hi :
  chain lo hi q → lo < e → e ≤ hi →
  ∃ run after lst,
    q = run ++ after ∧ last run = Some lst ∧ head run = head q
    ∧ start lst < e ∧ e ≤ endOf lst
    ∧ chain lo (endOf lst) run ∧ chain (endOf lst) hi after
    ∧ Forall (λ b, start b < e) run
    ∧ scanRight e q
      = (after, if e <? endOf lst then endOf lst - e else 0,
                if e <? endOf lst then tasks lst else []).
Proof.
  revert lo. induction q as [|c q IH]; intros lo Hc Hlo Hhi.
  - simpl in Hc. lia.
  - simpl in Hc. destruct Hc as (H1 & H2 & H3). simpl.
    destruct (Z.leb_spec e (start c + span c)) as [Hle|Hgt].
    + exists [c], q, c. unfold endOf. simpl.
      repeat split; try done; try lia.
      * by rewrite H1.
      * constructor; [lia|done].
      * destruct (Z.ltb_spec 0 (start c + span c - e)),
          (Z.ltb_spec e (start c + span c)); try lia; done.
    + destruct (IH (lo + span c) H3) as (run & after & lst & -> & Hl & Hh & ? & ? & ? & ? & ? & ->);
        [lia|lia|].
      exists (c :: run), after, lst.
      repeat split; try done.
      * destruct run; [done|]. done.
      * constructor; [lia|done].
Qed.

Lemma replaceRange_shape lo hi p s sp :
  chain lo hi p → lo ≤ s → 1 ≤ sp → s + sp ≤ hi →
  ∃ before run after first lst,
    overlap_run p s sp before run after first lst
    ∧ chain lo (start first) before
    ∧ chain (start first) (endOf lst) run
    ∧ chain (endOf lst) hi after
    ∧ start first ≤ s ∧ s + sp ≤ endOf lst
    ∧ ∀ newTasks,
        replaceRangeWithSingleBlock p s sp newTasks
        = before ++ leftRemainder first s
            ++ [ {| start := s; span := sp; tasks := newTasks |} ]
            ++ rightRemainder lst (s + sp) ++ after.
Proof.
  revert lo. induction p as [|c p IH]; intros lo Hc Hlo Hsp Hhi.
  - simpl in Hc. lia.
  - pose proof Hc as Hc'. simpl in Hc. destruct Hc as (H1 & H2 & H3).
    cbn [replaceRangeWithSingleBlock].
    destruct (Z.leb_spec (start c + span c) s) as [Hle|Hgt]; simpl orb.
    + destruct (IH (lo + span c) H3) as
        (before & run & after & first & lst & [Hsplit Hh Hl Hb Hr Ha] & ? & ? & ? & ? & ? & Heq);
        [lia|lia|lia|].
      exists (c :: before), run, after, first, lst.
      repeat split; try done.
      * by rewrite Hsplit.
      * constructor; [unfold endOf; lia|done].
      * intros newTasks. by rewrite with_tasks_same, Heq.
    + destruct (Z.leb_spec (s + sp) (start c)) as [?|_]; [lia|].
      destruct (scanRight_spec (s + sp) (c :: p) lo hi Hc') as
        (run & after & lst & Hsplit & Hl & Hh & ? & ? & Hcr & Hca & Hlt & ->);
        [lia|lia|].
      exists [], run, after, c, lst. simpl in Hh.
      assert (Forall (λ b, s + sp ≤ start b) after) as Hafter.
      { apply Forall_forall. intros b Hb.
        destruct (chain_bounds _ _ _ _ Hca Hb). lia. }
      assert (Forall (overlaps s (s + sp)) run) as Hrun.
      { apply Forall_forall. intros b Hb. split.
        - by apply (proj1 (Forall_forall _ _) Hlt).
        - destruct (chain_bounds _ _ _ _ Hcr Hb) as (? & ? & ?).
          destruct run as [|r run]; [done|]. simpl in Hh. injection Hh as ->.
          apply elem_of_cons in Hb as [->|Hb]; [unfold endOf; lia|].
          destruct Hcr as (? & ? & Hcr).
          destruct (chain_bounds _ _ _ _ Hcr Hb). unfold endOf in *. lia. }
      repeat split; try done; try (unfold endOf in *; lia); [by rewrite H1|].
      intros newTasks.
      unfold leftRemainder, rightRemainder. rewrite copy_blocks_same. simpl.
      destruct (Z.ltb_spec (start c) s), (Z.ltb_spec (s + sp) (endOf lst));
        simpl; try done.
      all: destruct (Z.ltb_spec 0 (endOf lst - (s + sp))); try lia; done.
Qed.

Lemma replaceRange_chain lo hi p s sp newTasks :
  chain lo hi p → lo ≤ s → 1 ≤ sp → s + sp ≤ hi →
  chain lo hi (replaceRangeWithSingleBlock p s sp newTasks).
Proof.
  intros Hc Hlo Hsp Hhi.
  destruct (replaceRange_shape lo hi p s sp Hc Hlo Hsp Hhi) as
    (before & run & after & first & lst & _ & Hb & _ & Ha & Hf & Hl & Heq).
  rewrite Heq.
  apply chain_app. exists (start first). split; [done|].
  unfold leftRemainder, rightRemainder.
  destruct (Z.ltb_spec (start first) s), (Z.ltb_spec (s + sp) (endOf lst)); simpl;
    repeat split; try lia; try done.
  all: match goal with |- chain ?x _ _ => replace x with (endOf lst) by lia end; done.
Qed.

Lemma filter_none {A} (P : A → Prop) `{!∀ x, Decision (P x)} (l : list A) :
  Forall (λ x, ¬ P x) l → filter P l = [].
Proof.
  induction 1 as [|x l Hx Hl IH]; [done|].
  rewrite filter_cons. by destruct (decide (P x)).
Qed.

Lemma replaceRange_only_block_at_range lo hi p s sp newTasks :
  chain lo hi p → lo ≤ s → 1 ≤ sp → s + sp ≤ hi →
  filter (at_range s sp) (replaceRangeWithSingleBlock p s sp newTasks)
  = [ {| start := s; span := sp; tasks := newTasks |} ].
Proof.
  intros Hc Hlo Hsp Hhi.
  destruct (replaceRange_shape lo hi p s sp Hc Hlo Hsp Hhi) as
    (before & run & after & first & lst & [_ _ _ _ _ Hafter] & Hb & _ & Ha & Hf & Hl & Heq).
  rewrite Heq.
  rewrite !filter_app.
  rewrite (filter_none _ before), (filter_none _ (leftRemainder first s)),
    (filter_none _ (rightRemainder lst (s + sp))), (filter_none _ after).
  - simpl. rewrite filter_cons. destruct (decide _) as [|Hn]; [done|].
    destruct Hn. by split.
  - eapply Forall_impl; [exact Hafter|]. intros b Hb' [Hs _]. simpl in *. lia.
  - unfold rightRemainder. destruct (Z.ltb_spec (s + sp) (endOf lst)); [|done].
    constructor; [|done]. intros [Hs _]. simpl in Hs. lia.
  - unfold leftRemainder. destruct (Z.ltb_spec (start first) s); [|done].
    constructor; [|done]. intros [Hs _]. simpl in Hs. lia.
  - apply Forall_forall. intros b Hb' [Hs _].
    destruct (chain_bounds _ _ _ _ Hb Hb') as (? & ? & ?). unfold endOf in *. lia.
Qed.

Lemma elem_of_all_tasks p t : t ∈ all_tasks p ↔ ∃ b, b ∈ p ∧ t ∈ tasks b.
Proof.
  unfold all_tasks. rewrite list_elem_of_join. split.
  - intros (l & Ht & Hl). apply list_elem_of_fmap in Hl as (b & -> & Hb). eauto.
  - intros (b & Hb & Ht). exists (tasks b). split; [done|].
    apply list_elem_of_fmap. eauto.
Qed.

(** Every task of the result is a new task or comes from a block that
    is not inside the range. *)
Lemma replaceRange_task_origin lo hi p s sp newTasks t :
  chain lo hi p → lo ≤ s → 1 ≤ sp → s + sp ≤ hi →
  t ∈ all_tasks (replaceRangeWithSingleBlock p s sp newTasks) →
  t ∈ newTasks
  ∨ ∃ b, b ∈ p ∧ t ∈ tasks b ∧ ¬ (s ≤ start b ∧ endOf b ≤ s + sp).
Proof.
  intros Hc Hlo Hsp Hhi.
  destruct (replaceRange_shape lo hi p s sp Hc Hlo Hsp Hhi) as
    (before & run & after & first & lst & [Hsplit Hh Hla _ _ Hafter]
       & Hb & Hr & Ha & Hf & Hl & Heq).
  rewrite Heq.
  assert (first ∈ p) as Hfirst.
  { rewrite Hsplit. apply elem_of_app. right. apply elem_of_app. left.
    destruct run; [done|]. simpl in Hh. injection Hh as ->. left. }
  assert (lst ∈ p) as Hlst.
  { rewrite Hsplit. apply elem_of_app. right. apply elem_of_app. left.
    apply last_Some in Hla as (l' & ->). apply elem_of_app. right. left. }
  intros (b & Hin & Ht)%elem_of_all_tasks.
  rewrite !elem_of_app in Hin. destruct Hin as [Hin|[Hin|[Hin|[Hin|Hin]]]].
  - right. exists b. split; [rewrite Hsplit; apply elem_of_app; by left|].
    split; [done|]. destruct (chain_bounds _ _ _ _ Hb Hin) as (? & ? & ?).
    unfold endOf in *. lia.
  - unfold leftRemainder in Hin. destruct (Z.ltb_spec (start first) s); [|by apply elem_of_nil in Hin].
    apply list_elem_of_singleton in Hin as ->. simpl in Ht.
    right. exists first. split; [done|]. split; [done|]. lia.
  - apply list_elem_of_singleton in Hin as ->. by left.
  - unfold rightRemainder in Hin.
    destruct (Z.ltb_spec (s + sp) (endOf lst)); [|by apply elem_of_nil in Hin].
    apply list_elem_of_singleton in Hin as ->. simpl in Ht.
    right. exists lst. split; [done|]. split; [done|]. lia.
  - right. exists b. split; [rewrite Hsplit, !elem_of_app; by right; right|].
    split; [done|]. destruct (chain_bounds _ _ _ _ Ha Hin) as (? & ? & ?).
    pose proof (proj1 (Forall_forall _ _) Hafter b Hin) as Hs. simpl in Hs.
    unfold endOf in *. lia.
Qed.

(** ** Merge, unmerge and the task updaters *)

Lemma lookup_split {A} (l : list A) (i : nat) x :
  l !! i = Some x → l = take i l ++ x :: drop (S i) l ∧ length (take i l) = i.
Proof.
  intros H. split; [by rewrite take_drop_middle|].
  apply length_take_le. apply lookup_lt_Some in H. lia.
Qed.

Lemma lookup_split2 {A} (l : list A) (i : nat) x y :
  l !! i = Some x → l !! S i = Some y →
  l = take i l ++ x :: y :: drop (S (S i)) l ∧ length (take i l) = i.
Proof.
  intros Hx Hy. destruct (lookup_split l i x Hx) as [H1 H2]. split; [|done].
  rewrite <- (drop_S l y (S i) Hy). done.
Qed.

Lemma insert_middle {A} (pre post : list A) x y :
  <[length pre := y]> (pre ++ x :: post) = pre ++ y :: post.
Proof. induction pre as [|c pre IH]; simpl; [done|]. by rewrite IH. Qed.

Lemma lookup_middle {A} (pre post : list A) x :
  (pre ++ x :: post) !! length pre = Some x.
Proof. induction pre; done. Qed.

Lemma lookup_middle_succ {A} (pre post : list A) x y :
  (pre ++ x :: y :: post) !! S (length pre) = Some y.
Proof. induction pre; done. Qed.

Lemma splice_delete_middle {A} (pre post : list A) x y :
  splice (pre ++ x :: y :: post) (S (length pre)) 1 [] = pre ++ x :: post.
Proof.
  unfold splice. induction pre as [|c pre IH]; simpl.
  - by rewrite ?take_0, ?drop_0.
  - by rewrite <- IH.
Qed.

Lemma splice_replace_middle {A} (pre post : list A) x y :
  splice (pre ++ x :: post) (length pre) 1 [y] = pre ++ y :: post.
Proof.
  unfold splice. induction pre as [|c pre IH]; simpl.
  - by rewrite ?drop_0.
  - by rewrite <- IH.
Qed.

Lemma splice_insert_after {A} (pre post : list A) x y :
  splice (pre ++ x :: post) (S (length pre)) 0 [y] = pre ++ x :: y :: post.
Proof.
  unfold splice. induction pre as [|c pre IH]; simpl.
  - by rewrite ?take_0, ?drop_0.
  - by rewrite <- IH.
Qed.

Lemma mergeSlots_middle pre a b post :
  start a + span a = start b →
  mergeSlots (length pre) (pre ++ a :: b :: post)
  = Some (pre ++ {| start := start a; span := span a + span b;
                    tasks := tasks a ++ tasks b |} :: post).
Proof.
  intros Hadj. unfold mergeSlots.
  destruct (Z.leb_spec (Z.of_nat (length (pre ++ a :: b :: post)) - 1)
              (Z.of_nat (length pre))) as [Hle|_].
  { rewrite length_app in Hle. simpl in Hle. lia. }
  rewrite (lookup_middle pre (b :: post) a). simpl.
  rewrite lookup_middle_succ. simpl.
  destruct (Z.eqb_spec (start a + span a) (start b)); [|done]. simpl.
  by rewrite insert_middle, splice_delete_middle.
Qed.

Lemma mergeSlots_last (i : nat) p : (length p ≤ S i)%nat → mergeSlots i p = Some p.
Proof.
  intros H. unfold mergeSlots.
  destruct (Z.leb_spec (Z.of_nat (length p) - 1) (Z.of_nat i)); [done|lia].
Qed.

Lemma mergeSlots_not_adjacent (i : nat) p a b :
  p !! i = Some a → p !! S i = Some b → start a + span a ≠ start b →
  mergeSlots i p = Some p.
Proof.
  intros Ha Hb Hne. unfold mergeSlots. rewrite Ha, Hb. simpl.
  destruct (Z.leb_spec (Z.of_nat (length p) - 1) (Z.of_nat i)); [done|].
  by destruct (Z.eqb_spec (start a + span a) (start b)).
Qed.

Lemma mergeSlots_merge (i : nat) p a b :
  p !! i = Some a → p !! S i = Some b → start a + span a = start b →
  mergeSlots i p
  = Some (take i p ++ {| start := start a; span := span a + span b;
                         tasks := tasks a ++ tasks b |} :: drop (S (S i)) p).
Proof.
  intros Ha Hb Hadj. destruct (lookup_split2 p i a b Ha Hb) as [Hp Hlen].
  pose proof (mergeSlots_middle (take i p) a b (drop (S (S i)) p) Hadj) as H.
  by rewrite Hlen, <- Hp in H.
Qed.

Lemma mergeSlots_total (i : nat) p : is_Some (mergeSlots i p).
Proof.
  destruct (decide (length p ≤ S i)%nat) as [H|H].
  - rewrite mergeSlots_last; [eauto|done].
  - destruct (lookup_lt_is_Some_2 p i) as [a Ha]; [lia|].
    destruct (lookup_lt_is_Some_2 p (S i)) as [b Hb]; [lia|].
    destruct (decide (start a + span a = start b)) as [Hadj|Hne].
    + rewrite (mergeSlots_merge i p a b); eauto.
    + rewrite (mergeSlots_not_adjacent i p a b); eauto.
Qed.

Lemma unmergeSlot_split (i : nat) p s :
  p !! i = Some s → 60 < span s →
  unmergeSlot i p
  = Some (take i p ++ {| start := start s; span := 60; tasks := tasks s |}
            :: {| start := start s + 60; span := span s - 60; tasks := [] |}
            :: drop (S i) p).
Proof.
  intros Hs Hsp. destruct (lookup_split p i s Hs) as [Hp Hlen].
  unfold unmergeSlot. rewrite Hs.
  destruct (Z.leb_spec (span s) 60); [lia|]. f_equal.
  set (first := {| start := start s; span := 60; tasks := tasks s |}).
  set (second := {| start := start s + 60; span := span s - 60; tasks := [] |}).
  pose proof (splice_replace_middle (take i p) (drop (S i) p) s first) as H1.
  pose proof (splice_insert_after (take i p) (drop (S i) p) first second) as H2.
  rewrite Hlen in H1, H2. rewrite <- Hp in H1. by rewrite H1, H2.
Qed.

Lemma unmergeSlot_small (i : nat) p s :
  p !! i = Some s → span s ≤ 60 → unmergeSlot i p = Some p.
Proof.
  intros Hs Hsp. unfold unmergeSlot. rewrite Hs.
  by destruct (Z.leb_spec (span s) 60); [|lia].
Qed.

Lemma unmergeSlot_outside (i : nat) p : p !! i = None → unmergeSlot i p = Some p.
Proof. intros H. unfold unmergeSlot. by rewrite H. Qed.

Lemma mergeSlots_chain lo hi (i : nat) p q :
  chain lo hi p → mergeSlots i p = Some q → chain lo hi q.
Proof.
  intros Hc Hm.
  destruct (decide (length p ≤ S i)%nat) as [H|H].
  { rewrite mergeSlots_last in Hm by done. by injection Hm as <-. }
  destruct (lookup_lt_is_Some_2 p i) as [a Ha]; [lia|].
  destruct (lookup_lt_is_Some_2 p (S i)) as [b Hb]; [lia|].
  pose proof (chain_lookup_succ _ _ _ _ _ _ Hc Ha Hb) as Hadj. unfold endOf in Hadj.
  rewrite (mergeSlots_merge i p a b Ha Hb Hadj) in Hm. injection Hm as <-.
  destruct (lookup_split2 p i a b Ha Hb) as [Hp _]. rewrite Hp in Hc.
  apply chain_app in Hc as (mid & H1 & H2 & H3 & H4 & H5 & H6).
  apply chain_app. exists mid. split; [done|]. simpl.
  split; [done|]. split; [lia|].
  by replace (mid + (span a + span b)) with (mid + span a + span b) by lia.
Qed.

Lemma unmergeSlot_chain lo hi (i : nat) p q :
  chain lo hi p → unmergeSlot i p = Some q → chain lo hi q.
Proof.
  intros Hc Hm. destruct (p !! i) as [s|] eqn:Hs.
  - destruct (decide (span s ≤ 60)) as [H|H].
    + rewrite (unmergeSlot_small i p s) in Hm by done. by injection Hm as <-.
    + rewrite (unmergeSlot_split i p s) in Hm by (done || lia). injection Hm as <-.
      destruct (lookup_split p i s Hs) as [Hp _]. rewrite Hp in Hc.
      apply chain_app in Hc as (mid & H1 & H2 & H3 & H4).
      apply chain_app. exists mid. split; [done|]. simpl.
      repeat split; try lia.
      by replace (mid + 60 + (span s - 60)) with (mid + span s) by lia.
  - rewrite unmergeSlot_outside in Hm by done. by injection Hm as <-.
Qed.

Lemma insert_with_tasks_chain lo hi (i : nat) p blk ts :
  chain lo hi p → p !! i = Some blk → chain lo hi (<[i := with_tasks blk ts]> p).
Proof.
  intros Hc Hi. eapply chain_same_shape; [|exact Hc].
  rewrite list_fmap_insert. simpl. symmetry. apply list_insert_id.
  by rewrite list_lookup_fmap, Hi.
Qed.

Lemma addTask_chain lo hi (i : nat) newId text p q :
  chain lo hi p → addTask i newId text p = Some q → chain lo hi q.
Proof.
  unfold addTask. intros Hc Hq. destruct (p !! i) as [blk|] eqn:Hi; [|done].
  simpl in Hq. injection Hq as <-. by apply insert_with_tasks_chain.
Qed.

Lemma updateTask_chain lo hi (i : nat) tid patch p q :
  chain lo hi p → updateTask i tid patch p = Some q → chain lo hi q.
Proof.
  unfold updateTask. intros Hc Hq. destruct (p !! i) as [blk|] eqn:Hi; [|done].
  simpl in Hq. injection Hq as <-. by apply insert_with_tasks_chain.
Qed.

Lemma removeTask_chain lo hi (i : nat) tid p q :
  chain lo hi p → removeTask i tid p = Some q → chain lo hi q.
Proof.
  unfold removeTask. intros Hc Hq. destruct (p !! i) as [blk|] eqn:Hi; [|done].
  simpl in Hq. injection Hq as <-. by apply insert_with_tasks_chain.
Qed.

(** ** Cross-day propagation *)

Section RandomProperties.

Variable uid_at : nat → string.

Lemma makeCopies_cons x T n :
  makeCopies uid_at (x :: T) n
  = (Task.with_id x (uid_at n) :: (makeCopies uid_at T (S n)).1,
     (makeCopies uid_at T (S n)).2).
Proof. simpl. by destruct (makeCopies uid_at T (S n)). Qed.

Lemma makeCopies_draws T n : (makeCopies uid_at T n).2 = (n + length T)%nat.
Proof.
  revert n. induction T as [|x T IH]; intros n; [simpl; lia|].
  rewrite makeCopies_cons. cbn [snd length]. rewrite IH. lia.
Qed.

Lemma makeCopies_lookup T n (k : nat) :
  (makeCopies uid_at T n).1 !! k
  = (λ x, Task.with_id x (uid_at (n + k))) <$> T !! k.
Proof.
  revert n k. induction T as [|x T IH]; intros n k; [done|].
  rewrite makeCopies_cons. cbn [fst]. destruct k as [|k].
  - cbn. by rewrite Nat.add_0_r.
  - replace (n + S k)%nat with (S n + k)%nat by lia. apply IH.
Qed.

Lemma makeCopies_length T n : length (makeCopies uid_at T n).1 = length T.
Proof.
  revert n. induction T as [|x T IH]; intros n; [done|].
  rewrite makeCopies_cons. cbn [fst length]. by rewrite IH.
Qed.

Lemma at_range_test s sp blk :
  (start blk =? s) && (span blk =? sp) = bool_decide (at_range s sp blk).
Proof.
  unfold at_range.
  destruct (Z.eqb_spec (start blk) s), (Z.eqb_spec (span blk) sp); simpl;
    symmetry; (apply bool_decide_eq_true_2 || apply bool_decide_eq_false_2); tauto.
Qed.

Lemma appendCopies_none s sp T l n :
  Forall (λ b, ¬ at_range s sp b) l → appendCopies uid_at s sp T l n = (l, n).
Proof.
  induction 1 as [|b l Hb Hl IH]; simpl; [done|].
  rewrite at_range_test, bool_decide_eq_false_2 by done. by rewrite IH.
Qed.

Lemma appendCopies_skip s sp T l1 l2 n :
  Forall (λ b, ¬ at_range s sp b) l1 →
  appendCopies uid_at s sp T (l1 ++ l2) n
  = (l1 ++ (appendCopies uid_at s sp T l2 n).1, (appendCopies uid_at s sp T l2 n).2).
Proof.
  induction 1 as [|b l1 Hb Hl IH]; simpl.
  - by destruct (appendCopies uid_at s sp T l2 n).
  - rewrite at_range_test, bool_decide_eq_false_2 by done. by rewrite IH.
Qed.

Lemma appendCopies_cons s sp T b l n :
  appendCopies uid_at s sp T (b :: l) n
  = if bool_decide (at_range s sp b) then
      let cs := makeCopies uid_at T n in
      let r := appendCopies uid_at s sp T l cs.2 in
      (with_tasks b (tasks b ++ cs.1) :: r.1, r.2)
    else
      let r := appendCopies uid_at s sp T l n in (b :: r.1, r.2).
Proof.
  simpl. rewrite at_range_test. destruct (bool_decide (at_range s sp b)).
  - destruct (makeCopies uid_at T n) as [cs n1]. simpl.
    by destruct (appendCopies uid_at s sp T l n1).
  - by destruct (appendCopies uid_at s sp T l n).
Qed.

Lemma appendCopies_shape s sp T l n :
  (λ b, (start b, span b)) <$> (appendCopies uid_at s sp T l n).1
  = (λ b, (start b, span b)) <$> l.
Proof.
  revert n. induction l as [|b l IH]; intros n; [done|].
  rewrite appendCopies_cons. destruct (bool_decide (at_range s sp b)); cbn [fst].
  - by rewrite !fmap_cons, IH.
  - by rewrite !fmap_cons, IH.
Qed.

(** In replace mode a day is spliced with fresh copies of the source tasks. *)
Lemma applyBlockToDay_replace srcBlock slots n :
  applyBlockToDay uid_at "replace" srcBlock slots n
  = (replaceRangeWithSingleBlock slots (start srcBlock) (span srcBlock)
       (makeCopies uid_at (tasks srcBlock) n).1,
     (n + length (tasks srcBlock))%nat).
Proof.
  unfold applyBlockToDay. simpl.
  pose proof (makeCopies_draws (tasks srcBlock) n) as H.
  destruct (makeCopies uid_at (tasks srcBlock) n). simpl in *. by subst.
Qed.

(** On a valid day the append mode gives what the replace mode gives:
    the block it appends to is the one the splice just created with no
    task. *)
Lemma applyBlockToDay_append lo hi srcBlock slots n :
  chain lo hi slots → lo ≤ start srcBlock → 1 ≤ span srcBlock →
  start srcBlock + span srcBlock ≤ hi →
  applyBlockToDay uid_at "append" srcBlock slots n
  = (replaceRangeWithSingleBlock slots (start srcBlock) (span srcBlock)
       (makeCopies uid_at (tasks srcBlock) n).1,
     (n + length (tasks srcBlock))%nat).
Proof.
  intros Hc Hlo Hsp Hhi. unfold applyBlockToDay. simpl.
  destruct (replaceRange_shape lo hi slots _ _ Hc Hlo Hsp Hhi) as
    (before & run & after & first & lst & [_ _ _ _ _ Hafter] & Hb & _ & Ha & Hf & Hl & Heq).
  rewrite !Heq. set (s := start srcBlock) in *. set (sp := span srcBlock) in *.
  rewrite appendCopies_skip.
  2:{ apply Forall_forall. intros b Hb' [Hs _].
      destruct (chain_bounds _ _ _ _ Hb Hb') as (? & ? & ?). unfold endOf in *. lia. }
  rewrite appendCopies_skip.
  2:{ unfold leftRemainder. destruct (Z.ltb_spec (start first) s); [|done].
      constructor; [|done]. intros [Hs _]. simpl in Hs. lia. }
  cbn [app]. rewrite appendCopies_cons.
  rewrite bool_decide_eq_true_2 by done. cbn zeta.
  rewrite makeCopies_draws. cbn [with_tasks start span tasks app].
  rewrite appendCopies_skip.
  2:{ unfold rightRemainder. destruct (Z.ltb_spec (s + sp) (endOf lst)); [|done].
      constructor; [|done]. intros [Hs _]. simpl in Hs. lia. }
  rewrite appendCopies_none.
  2:{ eapply Forall_impl; [exact Hafter|]. intros b Hb' [Hs _]. simpl in *. lia. }
  done.
Qed.

Lemma applyBlockToDay_chain lo hi mode srcBlock slots n :
  chain lo hi slots → lo ≤ start srcBlock → 1 ≤ span srcBlock →
  start srcBlock + span srcBlock ≤ hi →
  chain lo hi (applyBlockToDay uid_at mode srcBlock slots n).1.
Proof.
  intros Hc Hlo Hsp Hhi. unfold applyBlockToDay.
  destruct (if String.eqb mode "replace" then _ else _) as [initialTasks n1].
  pose proof (replaceRange_chain lo hi slots _ _ initialTasks Hc Hlo Hsp Hhi) as Hr.
  destruct (String.eqb mode "append"); [|done].
  eapply chain_same_shape; [|exact Hr]. symmetry. apply appendCopies_shape.
Qed.

Lemma applyBlockToDay_draws lo hi mode srcBlock slots n :
  chain lo hi slots → lo ≤ start srcBlock → 1 ≤ span srcBlock →
  start srcBlock + span srcBlock ≤ hi →
  (applyBlockToDay uid_at mode srcBlock slots n).2
  = (n + drawsPerDay mode srcBlock)%nat.
Proof.
  intros Hc Hlo Hsp Hhi. unfold drawsPerDay.
  destruct (String.eqb_spec mode "replace") as [->|Hr].
  { by rewrite applyBlockToDay_replace. }
  destruct (String.eqb_spec mode "append") as [->|Ha].
  { by rewrite (applyBlockToDay_append lo hi). }
  unfold applyBlockToDay.
  rewrite (proj2 (String.eqb_neq _ _) Hr), (proj2 (String.eqb_neq _ _) Ha).
  simpl. lia.
Qed.

Lemma applyBlockToDays_spec mode srcBlock prev (c : nat) days next n :
  (∀ d, d ∈ days → ∃ slots, prev !! d = Some slots
      ∧ ∀ m, (applyBlockToDay uid_at mode srcBlock slots m).2 = (m + c)%nat) →
  NoDup days →
  ∃ next',
    applyBlockToDays uid_at mode srcBlock prev days next n
    = Some (next', (n + length days * c)%nat)
    ∧ (∀ k, k ∉ days → next' !! k = next !! k)
    ∧ (∀ (i : nat) d, days !! i = Some d →
         ∃ slots, prev !! d = Some slots
           ∧ next' !! d
             = Some (applyBlockToDay uid_at mode srcBlock slots (n + i * c)).1).
Proof.
  revert next n. induction days as [|d days IH]; intros next n Hdays Hnd.
  - exists next. simpl. rewrite Nat.add_0_r. by repeat split.
  - apply NoDup_cons in Hnd as [Hd Hnd].
    destruct (Hdays d) as (slots & Hslots & Hdraws); [left|].
    cbn [applyBlockToDays]. rewrite Hslots. cbn [mbind option_bind].
    specialize (Hdraws n).
    destruct (applyBlockToDay uid_at mode srcBlock slots n) as [reshaped n'] eqn:Hday.
    simpl in Hdraws. subst n'.
    destruct (IH (<[d := reshaped]> next) (n + c)%nat) as (next' & Hrun & Hother & Hin);
      [intros d' Hd'; apply Hdays; by right|done|].
    exists next'. split; [|split].
    + rewrite Hrun. do 2 f_equal. simpl. lia.
    + intros k Hk. apply not_elem_of_cons in Hk as [Hk1 Hk2].
      rewrite Hother by done. by rewrite lookup_insert_ne.
    + intros [|i] d' Hi; simpl in Hi.
      * injection Hi as <-. exists slots. split; [done|].
        rewrite Hother by done. rewrite lookup_insert_eq.
        by rewrite Nat.add_0_r, Hday.
      * destruct (Hin i d' Hi) as (slots' & H1 & H2). exists slots'. split; [done|].
        rewrite H2. do 3 f_equal. lia.
Qed.

Lemma DAYS_NoDup : NoDup DAYS.
Proof. apply (bool_decide_unpack (NoDup DAYS)). by vm_compute. Qed.

Lemma applyBlockToAllDays_spec mode (blockIndex : nat) st srcSlots srcBlock (c : nat) :
  schedule st !! dayKey (selectedDay st) = Some srcSlots →
  srcSlots !! blockIndex = Some srcBlock →
  (∀ d, d ∈ DAYS → ∃ slots, schedule st !! d = Some slots
      ∧ ∀ m, (applyBlockToDay uid_at mode srcBlock slots m).2 = (m + c)%nat) →
  ∃ st',
    applyBlockToAllDays uid_at blockIndex mode st = Some st'
    ∧ selectedDay st' = selectedDay st
    ∧ draws st' = (draws st + 7 * c)%nat
    ∧ (∀ k, k ∉ DAYS → schedule st' !! k = schedule st !! k)
    ∧ (∀ (i : nat) d, DAYS !! i = Some d →
         ∃ slots, schedule st !! d = Some slots
           ∧ schedule st' !! d
             = Some (applyBlockToDay uid_at mode srcBlock slots
                       (draws st + i * c)).1).
Proof.
  intros Hsrc Hblk Hdays. unfold applyBlockToAllDays.
  rewrite Hsrc. cbn [mbind option_bind]. rewrite Hblk.
  destruct (applyBlockToDays_spec mode srcBlock (schedule st) c DAYS
              (schedule st) (draws st) Hdays DAYS_NoDup) as (next' & -> & H1 & H2).
  cbn [mbind option_bind]. eexists. split; [done|]. simpl. by repeat split.
Qed.

Lemma valid_source_block p (i : nat) b :
  valid_partition p → p !! i = Some b →
  0 ≤ start b ∧ 1 ≤ span b ∧ start b + span b ≤ 1440.
Proof.
  intros Hp%valid_partition_chain Hb%list_elem_of_lookup_2.
  apply (chain_bounds _ _ _ _ Hp Hb).
Qed.

(** ** The partition invariant *)

Lemma valid_schedule_insert sch k p :
  valid_schedule sch → valid_partition p → valid_schedule (<[k := p]> sch).
Proof.
  intros [Hdays Hvalid] Hp. split.
  - intros d Hd. destruct (decide (k = d)) as [->|Hne].
    + rewrite lookup_insert_eq. eauto.
    + rewrite lookup_insert_ne by done. by apply Hdays.
  - intros d q. destruct (decide (k = d)) as [->|Hne].
    + rewrite lookup_insert_eq. by intros [= <-].
    + rewrite lookup_insert_ne by done. apply Hvalid.
Qed.

Lemma setDaySlots_valid updater st st' :
  valid_schedule (schedule st) →
  (∀ p q, chain 0 1440 p → updater p = Some q → chain 0 1440 q) →
  setDaySlots updater st = Some st' →
  valid_schedule (schedule st').
Proof.
  intros Hv Hupd. unfold setDaySlots.
  destruct (schedule st !! dayKey (selectedDay st)) as [slots|] eqn:Hs; [|done].
  simpl. destruct (updater slots) as [next|] eqn:Hn; [|done].
  simpl. intros [= <-]. simpl. apply valid_schedule_insert; [done|].
  apply valid_partition_chain. eapply Hupd; [|exact Hn].
  apply valid_partition_chain. by apply (proj2 Hv _ _ Hs).
Qed.

Lemma defaultSchedule_lookup d :
  defaultSchedule !! d = if bool_decide (d ∈ DAYS) then Some defaultDay else None.
Proof.
  unfold defaultSchedule, DAYS. cbn [foldl].
  repeat (rewrite lookup_insert; case_decide;
          [subst d; by rewrite bool_decide_eq_true_2
                      by (rewrite !elem_of_cons; auto 10)|]).
  rewrite lookup_empty, bool_decide_eq_false_2; [done|].
  rewrite !elem_of_cons, elem_of_nil. intuition congruence.
Qed.

Lemma defaultSchedule_valid : valid_schedule defaultSchedule.
Proof.
  split.
  - intros d Hd. rewrite defaultSchedule_lookup, bool_decide_eq_true_2 by done. eauto.
  - intros d p. rewrite defaultSchedule_lookup. case_bool_decide; [|done].
    intros [= <-]. apply defaultDay_valid.
Qed.

Lemma applyBlockToAllDays_valid (blockIndex : nat) mode st st' :
  valid_schedule (schedule st) →
  applyBlockToAllDays uid_at blockIndex mode st = Some st' →
  valid_schedule (schedule st').
Proof.
  intros Hv Happly.
  destruct (schedule st !! dayKey (selectedDay st)) as [srcSlots|] eqn:Hsrc.
  2:{ unfold applyBlockToAllDays in Happly. by rewrite Hsrc in Happly. }
  destruct (srcSlots !! blockIndex) as [srcBlock|] eqn:Hblk.
  2:{ unfold applyBlockToAllDays in Happly. rewrite Hsrc in Happly. simpl in Happly.
      rewrite Hblk in Happly. by injection Happly as <-. }
  destruct (valid_source_block srcSlots blockIndex srcBlock) as (Hlo & Hsp & Hhi);
    [by apply (proj2 Hv _ _ Hsrc)|done|].
  destruct (applyBlockToAllDays_spec mode blockIndex st srcSlots srcBlock
              (drawsPerDay mode srcBlock) Hsrc Hblk) as (st2 & Heq & _ & _ & Hother & Hin).
  { intros d Hd. destruct (proj1 Hv d Hd) as [slots Hslots]. exists slots.
    split; [done|]. intros m.
    apply (applyBlockToDay_draws 0 1440); try done.
    apply valid_partition_chain. by apply (proj2 Hv _ _ Hslots). }
  rewrite Heq in Happly. injection Happly as <-. split.
  - intros d Hd. apply list_elem_of_lookup_1 in Hd as [i Hi].
    destruct (Hin i d Hi) as (slots & _ & ->). eauto.
  - intros d p Hp. destruct (decide (d ∈ DAYS)) as [Hd|Hd].
    + apply list_elem_of_lookup_1 in Hd as [i Hi].
      destruct (Hin i d Hi) as (slots & Hslots & Hnew).
      rewrite Hnew in Hp. injection Hp as <-.
      apply valid_partition_chain, applyBlockToDay_chain; try done.
      apply valid_partition_chain. by apply (proj2 Hv _ _ Hslots).
    + rewrite Hother in Hp by done. by apply (proj2 Hv _ _ Hp).
Qed.

Lemma addCustomBlock_valid raw st st' :
  valid_schedule (schedule st) →
  (addCustomBlock raw st).2 = Some st' →
  valid_schedule (schedule st').
Proof.
  intros Hv. unfold addCustomBlock.
  destruct raw as [[|c raw]|]; [by intros [= <-]| |by intros [= <-]].
  destruct (splitRange (c :: raw)) as [|part0 [|part1 rest]];
    [by intros [= <-]|by intros [= <-]|].
  destruct (parseTimeToMinutes part0) as [startMin|]; [|by intros [= <-]].
  destruct (parseTimeToMinutes part1) as [endMin|]; [|by intros [= <-]].
  destruct (Z.leb_spec endMin startMin); [by intros [= <-]|].
  cbn [snd]. apply setDaySlots_valid; [done|].
  intros p q Hp [= <-]. apply replaceRange_chain; [done|unfold MINS_IN_DAY; lia..].
Qed.

Lemma step_valid op st st' :
  op_ok op → valid_schedule (schedule st) →
  step uid_at op st = Some st' → valid_schedule (schedule st').
Proof.
  intros Hok Hv. destruct op; simpl.
  - by intros [= <-].
  - apply setDaySlots_valid; [done|]. intros p q. apply mergeSlots_chain.
  - apply setDaySlots_valid; [done|]. intros p q. apply unmergeSlot_chain.
  - destruct text as [[|c text]|]; [by intros [= <-]| |by intros [= <-]].
    destruct (setDaySlots _ st) as [st2|] eqn:Hset; [|done].
    simpl. intros [= <-]. simpl.
    eapply setDaySlots_valid; [exact Hv| |exact Hset].
    intros p q. apply addTask_chain.
  - apply setDaySlots_valid; [done|]. intros p q. apply updateTask_chain.
  - apply setDaySlots_valid; [done|]. intros p q. apply removeTask_chain.
  - apply setDaySlots_valid; [done|]. intros p q Hp [= <-].
    simpl in Hok. apply replaceRange_chain; [done|lia..].
  - by apply applyBlockToAllDays_valid.
  - intros [= <-]. unfold resetSelectedDay. destruct confirmed; [|done].
    simpl. apply valid_schedule_insert; [done|apply defaultDay_valid].
  - by apply addCustomBlock_valid.
Qed.

Lemma run_valid ops st st' :
  Forall op_ok ops → valid_schedule (schedule st) →
  run uid_at ops st = Some st' → valid_schedule (schedule st').
Proof.
  intros Hops. revert st. induction Hops as [|op ops Hop Hops IH]; intros st Hv; simpl.
  - by intros [= <-].
  - destruct (step uid_at op st) as [st2|] eqn:Hstep; [|done]. simpl.
    apply IH. by apply (step_valid op st).
Qed.

(** No action throws on a valid schedule, as long as the task updaters
    are given the index of an existing block. *)
Lemma dayKey_in_DAYS (d : nat) : (d < 7)%nat → dayKey d ∈ DAYS.
Proof.
  intros Hd. unfold dayKey, DAYS.
  do 7 (destruct d as [|d]; [simpl; rewrite !elem_of_cons; auto 10|]). lia.
Qed.

Lemma setDaySlots_defined updater st p :
  schedule st !! dayKey (selectedDay st) = Some p →
  is_Some (updater p) → is_Some (setDaySlots updater st).
Proof. intros Hp [q Hq]. unfold setDaySlots. rewrite Hp. simpl. rewrite Hq. by eexists. Qed.

Lemma unmergeSlot_total (i : nat) p : is_Some (unmergeSlot i p).
Proof.
  unfold unmergeSlot. destruct (p !! i) as [s|]; [|by eexists].
  destruct (span s <=? 60); by eexists.
Qed.

Lemma step_defined op st :
  valid_schedule (schedule st) → (selectedDay st < 7)%nat → op_enabled st op →
  is_Some (step uid_at op st).
Proof.
  intros Hv Hsel Hen.
  destruct (proj1 Hv _ (dayKey_in_DAYS _ Hsel)) as [p Hp].
  destruct op; simpl.
  - by eexists.
  - apply (setDaySlots_defined _ _ p Hp), mergeSlots_total.
  - apply (setDaySlots_defined _ _ p Hp), unmergeSlot_total.
  - destruct text as [[|c text]|]; [by eexists| |by eexists].
    simpl in Hen. destruct Hen as (p' & Hp' & Hi).
    destruct (setDaySlots_defined (addTask i (uid_at (draws st)) (String c text)) st p' Hp')
      as [st2 ->]; [|by eexists].
    unfold addTask. destruct (lookup_lt_is_Some_2 p' i Hi) as [blk ->]. by eexists.
  - simpl in Hen. destruct Hen as (p' & Hp' & Hi).
    apply (setDaySlots_defined _ _ p' Hp').
    unfold updateTask. destruct (lookup_lt_is_Some_2 p' i Hi) as [blk ->]. by eexists.
  - simpl in Hen. destruct Hen as (p' & Hp' & Hi).
    apply (setDaySlots_defined _ _ p' Hp').
    unfold removeTask. destruct (lookup_lt_is_Some_2 p' i Hi) as [blk ->]. by eexists.
  - apply (setDaySlots_defined _ _ p Hp). by eexists.
  - destruct (p !! blockIndex) as [srcBlock|] eqn:Hblk.
    + destruct (valid_source_block p blockIndex srcBlock) as (Hlo & Hsp & Hhi);
        [by apply (proj2 Hv _ _ Hp)|done|].
      destruct (applyBlockToAllDays_spec mode blockIndex st p srcBlock
                  (drawsPerDay mode srcBlock) Hp Hblk) as (st2 & -> & _); [|by eexists].
      intros d Hd. destruct (proj1 Hv d Hd) as [slots Hslots]. exists slots.
      split; [done|]. intros m. apply (applyBlockToDay_draws 0 1440); try done.
      apply valid_partition_chain. by apply (proj2 Hv _ _ Hslots).
    + unfold applyBlockToAllDays. rewrite Hp. simpl. rewrite Hblk. by eexists.
  - by eexists.
  - unfold addCustomBlock.
    destruct raw as [[|c raw]|]; [by eexists| |by eexists].
    destruct (splitRange (c :: raw)) as [|part0 [|part1 rest]]; [by eexists..|].
    destruct (parseTimeToMinutes part0); [|by eexists].
    destruct (parseTimeToMinutes part1); [|by eexists].
    destruct (_ <=? _); [by eexists|].
    cbn [snd]. apply (setDaySlots_defined _ _ p Hp). by eexists.
Qed.

End RandomProperties.

(** ** The time parser and the custom range *)

Lemma parseTimeToMinutes_range x v :
  parseTimeToMinutes x = Some v → 0 ≤ v ≤ 1439.
Proof.
  unfold parseTimeToMinutes. case_bool_decide; [done|].
  match goal with
  | |- context [let '(h, m) := ?e in _] => destruct e as [[h|] [m|]]
  end; simpl; try done.
  intros [= <-]. lia.
Qed.

Example parse_colon : parseTimeToMinutes (ustr "9:30") = Some 570.
Proof. by vm_compute. Qed.

Example parse_pm : parseTimeToMinutes (ustr " 1:05PM ") = Some 785.
Proof. by vm_compute. Qed.

Example parse_compact : parseTimeToMinutes (ustr "930") = Some 570.
Proof. by vm_compute. Qed.

Example parse_space : parseTimeToMinutes (ustr "9 30") = Some 570.
Proof. by vm_compute. Qed.

Example parse_hour : parseTimeToMinutes (ustr "10") = Some 600.
Proof. by vm_compute. Qed.

Example parse_midnight : parseTimeToMinutes (ustr "12am") = Some 0.
Proof. by vm_compute. Qed.

Example parse_clamped : parseTimeToMinutes (ustr "99:99") = Some 1439.
Proof. by vm_compute. Qed.

Example parse_three_parts : parseTimeToMinutes (ustr "1 2 3") = Some 0.
Proof. by vm_compute. Qed.

Example parse_letters : parseTimeToMinutes (ustr "noon") = None.
Proof. by vm_compute. Qed.

Example parse_empty : parseTimeToMinutes [] = None.
Proof. by vm_compute. Qed.

Example split_hyphen : splitRange (ustr "9:30 - 10") = [ustr "9:30 "; ustr " 10"].
Proof. by vm_compute. Qed.

Example split_en_dash :
  splitRange (ustr "9" ++ [8211%N] ++ ustr "10") = [ustr "9"; ustr "10"].
Proof. by vm_compute. Qed.

Example split_to : splitRange (ustr "9 TO 10to") = [ustr "9 "; ustr " 10"; []].
Proof. by vm_compute. Qed.

(** * The claims *)

(** C1. Partition invariant: whatever sequence of user actions is run
    from the default schedule (merge, unmerge, a direct splice of a
    range with [0 ≤ start], [span ≥ 1], [start + span ≤ 1440],
    propagation to all days in any mode, the three task updaters, reset,
    the custom range, a change of the selected day), every day's
    partition of the resulting schedule is sorted by start, contiguous,
    covers exactly [0, 1440) and has spans of at least one minute; and
    the seven days are still there. *)
Theorem partition_invariant (uid_at : nat → string) (today : nat) ops st :
  Forall op_ok ops →
  run uid_at ops (initialPlanner today) = Some st →
  (∀ d, d ∈ DAYS → is_Some (schedule st !! d))
  ∧ ∀ d p, schedule st !! d = Some p →
      sorted_by_start p ∧ contiguous p ∧ covers_day p ∧ positive_spans p.
Proof.
  intros Hops Hrun.
  apply (run_valid uid_at ops (initialPlanner today) st Hops); [|done].
  apply defaultSchedule_valid.
Qed.

(** C2. On a valid partition and a valid range the splicer returns a
    valid partition in which the only block with the requested start
    and span is the new block with the new tasks; the run of blocks
    that overlapped the range is replaced by the optional left
    remainder, the new block and the optional right remainder, which
    are one to three blocks, and the blocks around the run are kept. *)
Theorem replaceRange_splices_request p s sp newTasks :
  valid_partition p → 0 ≤ s < 1440 → 1 ≤ sp → s + sp ≤ 1440 →
  let r := replaceRangeWithSingleBlock p s sp newTasks in
  let new := {| start := s; span := sp; tasks := newTasks |} in
  valid_partition r
  ∧ filter (at_range s sp) r = [new]
  ∧ ∃ before run after first lst,
      overlap_run p s sp before run after first lst
      ∧ run ≠ []
      ∧ r = before
            ++ (leftRemainder first s ++ [new] ++ rightRemainder lst (s + sp))
            ++ after
      ∧ (1 ≤ length (leftRemainder first s ++ [new] ++ rightRemainder lst (s + sp))
         ≤ 3)%nat.
Proof.
  intros Hp%valid_partition_chain [Hs _] Hsp Hend. cbv zeta.
  split; [by apply valid_partition_chain, replaceRange_chain|].
  split; [by apply (replaceRange_only_block_at_range 0 1440)|].
  destruct (replaceRange_shape 0 1440 p s sp Hp Hs Hsp Hend) as
    (before & run & after & first & lst & Hrun & _ & _ & _ & _ & _ & Heq).
  exists before, run, after, first, lst. split; [done|].
  split; [destruct Hrun as [_ Hh _ _ _ _]; by destruct run|].
  split; [by rewrite Heq, <- !app_assoc|].
  unfold leftRemainder, rightRemainder.
  destruct (start first <? s), (s + sp <? endOf lst); simpl; lia.
Qed.

(** C3, as the code has it.  Redistribution of tasks by the splicer,
    on a valid partition and a valid range: the left remainder exists
    exactly when the first overlapping block starts before the range
    and carries all the tasks of that block; the right remainder exists
    exactly when the last overlapping block ends after the range and
    carries all the tasks of that block; no other overlapping block
    contributes to the result, so a task that belongs only to blocks
    lying inside the range, and is not among the new tasks, occurs
    nowhere in the result.  On the blocks [0,60) [60,120) [120,180) with
    task "A" in [60,120), splicing [30,150) with the new task "X" gives
    [0,30) without task, [30,150) with "X" and [150,180) without task;
    the same on the default day. *)
Theorem replaceRange_redistributes_tasks p s sp newTasks :
  valid_partition p → 0 ≤ s < 1440 → 1 ≤ sp → s + sp ≤ 1440 →
  let r := replaceRangeWithSingleBlock p s sp newTasks in
  (∃ before run after first lst,
      overlap_run p s sp before run after first lst
      ∧ r = before
            ++ (if start first <? s
                then [ {| start := start first; span := s - start first;
                          tasks := tasks first |} ]
                else [])
            ++ [ {| start := s; span := sp; tasks := newTasks |} ]
            ++ (if s + sp <? endOf lst
                then [ {| start := s + sp; span := endOf lst - (s + sp);
                          tasks := tasks lst |} ]
                else [])
            ++ after)
  ∧ (∀ t, t ∉ newTasks →
       (∀ b, b ∈ p → t ∈ tasks b → s ≤ start b ∧ endOf b ≤ s + sp) →
       t ∉ all_tasks r)
  ∧ (let A := {| Task.id := "a1"; Task.text := "A"; Task.done := false |} in
     let X := {| Task.id := "x1"; Task.text := "X"; Task.done := false |} in
     replaceRangeWithSingleBlock
       [ {| start := 0; span := 60; tasks := [] |};
         {| start := 60; span := 60; tasks := [A] |};
         {| start := 120; span := 60; tasks := [] |} ] 30 120 [X]
     = [ {| start := 0; span := 30; tasks := [] |};
         {| start := 30; span := 120; tasks := [X] |};
         {| start := 150; span := 30; tasks := [] |} ]
     ∧ (addTask 1 "a1" "A" defaultDay
          ≫= λ day, Some (replaceRangeWithSingleBlock day 30 120 [X]))
       = Some ([ {| start := 0; span := 30; tasks := [] |};
                 {| start := 30; span := 120; tasks := [X] |};
                 {| start := 150; span := 30; tasks := [] |} ]
               ++ drop 3 defaultDay)).
Proof.
  intros Hp%valid_partition_chain [Hs _] Hsp Hend. cbv zeta.
  split; [|split].
  - destruct (replaceRange_shape 0 1440 p s sp Hp Hs Hsp Hend) as
      (before & run & after & first & lst & Hrun & _ & _ & _ & _ & _ & Heq).
    exists before, run, after, first, lst. split; [done|]. apply Heq.
  - intros t Hnew Honly Hin.
    destruct (replaceRange_task_origin 0 1440 p s sp newTasks t Hp Hs Hsp Hend Hin)
      as [?|(b & Hb & Ht & Hout)]; [done|].
    by apply Hout, Honly.
  - split; by vm_compute.
Qed.

(** C4.  Append mode loses the tasks a day already had at the target
    range.  With "gym" in Monday's block [90,150) and "call mom" in
    Tuesday's block of exactly that range, propagating Monday's block in
    append mode leaves in Tuesday's block [90,150) only the copy of
    "gym" ("call mom" is gone); Wednesday, which had no such block, gets
    a block [90,150) with only the copy of "gym". *)
Theorem append_mode_drops_existing_tasks :
  let after := applyBlockToAllDays letter_ids 1 "append" gymWeek in
  (after ≫= λ st, schedule st !! "Tuesday"%string)
  = Some [ {| start := 0; span := 90; tasks := [] |};
           {| start := 90; span := 60;
              tasks := [ {| Task.id := "c"; Task.text := "gym"; Task.done := false |} ] |};
           {| start := 150; span := 1290; tasks := [] |} ]
  ∧ (after ≫= λ st, filter (at_range 90 60) <$> schedule st !! "Wednesday"%string)
    = Some [ {| start := 90; span := 60;
                tasks := [ {| Task.id := "d"; Task.text := "gym";
                              Task.done := false |} ] |} ].
Proof. split; by vm_compute. Qed.

(** C5.  The schedule initialiser: with nothing stored, or with the
    empty string stored, it gives the default schedule, which maps each
    of the seven day names to the 24 blocks [{start: 60·h, span: 60,
    tasks: []}]; with any other stored string it gives exactly what
    [JSON.parse] gives, so an error thrown by [JSON.parse] reaches the
    caller. *)
Theorem loadSchedule_passes_parse_result
    (JSON_parse : string → option (gmap string (list Block))) :
  loadSchedule JSON_parse None = Some defaultSchedule
  ∧ loadSchedule JSON_parse (Some ""%string) = Some defaultSchedule
  ∧ (∀ c s, loadSchedule JSON_parse (Some (String c s)) = JSON_parse (String c s))
  ∧ loadSchedule (λ _, None) (Some "{oops"%string) = None
  ∧ (∀ d, defaultSchedule !! d
          = if bool_decide (d ∈ DAYS) then Some defaultDay else None)
  ∧ ∀ h : nat,
      defaultDay !! h
      = if bool_decide (h < 24)%nat
        then Some {| start := 60 * Z.of_nat h; span := 60; tasks := [] |}
        else None.
Proof.
  repeat split; try done.
  - apply defaultSchedule_lookup.
  - intros h. unfold defaultDay. case_bool_decide as Hh.
    + rewrite list_lookup_fmap, lookup_seq_lt by done. simpl. do 2 f_equal. lia.
    + apply lookup_ge_None_2. rewrite length_fmap, length_seq. lia.
Qed.

(** C6, as the code has it.  After propagation in replace mode of a
    source block with start [s], span [sp] and tasks [T], read in a
    valid schedule, each of the seven days (the source day too) has
    exactly one block with start [s] and span [sp]; its [k]-th task is
    the [k]-th task of [T] with the same text and done flag and with the
    id given by draw number [draws + i·|T| + k] of the random id source,
    [i] being the index of the day.  So the ids of two days' copies
    differ when these draws differ, and nothing else makes them differ.
    Whatever the ids, updating a task of the selected day leaves the
    partition of every other day as it was. *)
Theorem replace_mode_copies (uid_at : nat → string) (blockIndex : nat)
    st srcSlots srcBlock :
  valid_schedule (schedule st) →
  schedule st !! dayKey (selectedDay st) = Some srcSlots →
  srcSlots !! blockIndex = Some srcBlock →
  let T := tasks srcBlock in
  ∃ st',
    applyBlockToAllDays uid_at blockIndex "replace" st = Some st'
    ∧ (∀ (i : nat) d, DAYS !! i = Some d →
         ∃ p copies,
           schedule st' !! d = Some p
           ∧ filter (at_range (start srcBlock) (span srcBlock)) p
             = [ {| start := start srcBlock; span := span srcBlock; tasks := copies |} ]
           ∧ length copies = length T
           ∧ ∀ (k : nat) x, T !! k = Some x →
               copies !! k
               = Some {| Task.id := uid_at (draws st + i * length T + k)%nat;
                         Task.text := Task.text x;
                         Task.done := Task.done x |})
    ∧ (∀ (i : nat) tid patch st'' d,
         setDaySlots (updateTask i tid patch) st' = Some st'' →
         d ≠ dayKey (selectedDay st') →
         schedule st'' !! d = schedule st' !! d).
Proof.
  intros Hv Hsrc Hblk T.
  destruct (valid_source_block srcSlots blockIndex srcBlock) as (Hlo & Hsp & Hhi);
    [by apply (proj2 Hv _ _ Hsrc)|done|].
  destruct (applyBlockToAllDays_spec uid_at "replace" blockIndex st srcSlots srcBlock
              (length T) Hsrc Hblk) as (st' & Heq & _ & _ & _ & Hin).
  { intros d Hd. destruct (proj1 Hv d Hd) as [slots Hslots]. exists slots.
    split; [done|]. intros m. by rewrite applyBlockToDay_replace. }
  exists st'. split; [done|]. split.
  - intros i d Hi. destruct (Hin i d Hi) as (slots & Hslots & Hnew).
    rewrite applyBlockToDay_replace in Hnew. simpl in Hnew.
    eexists _, _. split; [exact Hnew|]. split; [|split].
    + apply (replaceRange_only_block_at_range 0 1440); try done.
      apply valid_partition_chain. by apply (proj2 Hv _ _ Hslots).
    + apply makeCopies_length.
    + intros k x Hk. rewrite makeCopies_lookup. fold T. by rewrite Hk.
  - intros i tid patch st'' d Hset Hd. unfold setDaySlots in Hset.
    destruct (schedule st' !! dayKey (selectedDay st')) as [slots|]; [|done].
    simpl in Hset. destruct (updateTask i tid patch slots) as [next|]; [|done].
    simpl in Hset. injection Hset as <-. simpl. by rewrite lookup_insert_ne.
Qed.

(** C7.  Merging block [i] of a valid partition with its successor
    puts in their place the single block that starts where block [i]
    starts, spans both and carries the tasks of block [i] followed by
    the tasks of the successor; at the last index, or beyond it, and on
    a pair that is not adjacent, the partition is returned as it is; the
    merge never throws. *)
Theorem mergeSlots_spec p (i : nat) :
  (∀ a b, valid_partition p → p !! i = Some a → p !! S i = Some b →
     mergeSlots i p
     = Some (take i p
             ++ {| start := start a; span := span a + span b;
                   tasks := tasks a ++ tasks b |}
             :: drop (S (S i)) p))
  ∧ ((length p ≤ S i)%nat → mergeSlots i p = Some p)
  ∧ (∀ a b, p !! i = Some a → p !! S i = Some b → start a + span a ≠ start b →
       mergeSlots i p = Some p)
  ∧ is_Some (mergeSlots i p).
Proof.
  split; [|split; [|split]].
  - intros a b Hp%valid_partition_chain Ha Hb. apply mergeSlots_merge; try done.
    apply (chain_lookup_succ _ _ _ _ _ _ Hp Ha Hb).
  - apply mergeSlots_last.
  - intros a b. apply mergeSlots_not_adjacent.
  - apply mergeSlots_total.
Qed.

(** C8.  Splitting is not the inverse of merging.  Splitting a block
    of more than 60 minutes puts in its place a head of 60 minutes with
    all the tasks of the block and a remainder of [span - 60] minutes
    without task; a block of at most 60 minutes is left as it is.  So
    merging three adjacent one-hour blocks, wherever they are in the
    day, and then splitting the result gives a head of 60 minutes and a
    remainder of 120 minutes, which is not the three blocks one started
    from. *)
Theorem unmergeSlot_not_inverse_of_merge p (i : nat) s :
  p !! i = Some s →
  (60 < span s →
     unmergeSlot i p
     = Some (take i p
             ++ {| start := start s; span := 60; tasks := tasks s |}
             :: {| start := start s + 60; span := span s - 60; tasks := [] |}
             :: drop (S i) p))
  ∧ (span s ≤ 60 → unmergeSlot i p = Some p)
  ∧ (∀ pre post s0 ta tb tc,
       let a := {| start := s0; span := 60; tasks := ta |} in
       let b := {| start := s0 + 60; span := 60; tasks := tb |} in
       let c := {| start := s0 + 120; span := 60; tasks := tc |} in
       let merged_then_split :=
         pre ++ {| start := s0; span := 60; tasks := (ta ++ tb) ++ tc |}
             :: {| start := s0 + 60; span := 120; tasks := [] |}
             :: post in
       ((mergeSlots (length pre) (pre ++ a :: b :: c :: post)
           ≫= mergeSlots (length pre))
          ≫= unmergeSlot (length pre))
       = Some merged_then_split
       ∧ merged_then_split ≠ pre ++ a :: b :: c :: post).
Proof.
  intros Hs. split; [|split].
  - by apply unmergeSlot_split.
  - by apply unmergeSlot_small.
  - intros pre post s0 ta tb tc. cbv zeta. split.
    + rewrite mergeSlots_middle by (simpl; lia). cbn [mbind option_bind].
      rewrite mergeSlots_middle by (simpl; lia). cbn [mbind option_bind].
      cbn [start span tasks].
      set (m := {| start := s0; span := 60 + 60 + 60; tasks := (ta ++ tb) ++ tc |}).
      pose proof (unmergeSlot_split (length pre) (pre ++ m :: post) m
                    (lookup_middle pre post m)) as H.
      rewrite take_app_length in H.
      replace (S (length pre)) with (length (pre ++ [m])) in H
        by (rewrite length_app; simpl; lia).
      rewrite (cons_middle m pre post), app_assoc, drop_app_length in H.
      rewrite <- app_assoc in H. simpl in H. by rewrite H.
    + intros Heq. apply (f_equal length) in Heq.
      rewrite !length_app in Heq. simpl in Heq. lia.
Qed.

(** C9.  The custom range: for every text typed, when either side of
    the range fails to parse, or the parsed end is not after the parsed
    start, the state is returned as it is; and the only other outcomes
    are a rejection with an alert that leaves the state as it is (no
    text, fewer than two parts) and the splice of [startMinute,
    endMinute) with no task into the selected day, which happens only
    when both sides parse and [endMinute > startMinute]; the range is
    then within the day. *)
Theorem addCustomBlock_rejects_bad_range (raw : ustring) st :
  (∀ part0 part1 rest,
     splitRange raw = part0 :: part1 :: rest →
     parseTimeToMinutes part0 = None ∨ parseTimeToMinutes part1 = None
     ∨ (∃ startMin endMin,
          parseTimeToMinutes part0 = Some startMin
          ∧ parseTimeToMinutes part1 = Some endMin ∧ endMin ≤ startMin) →
     (addCustomBlock (Some raw) st).2 = Some st)
  ∧ ((∃ alert, addCustomBlock (Some raw) st = (alert, Some st)
               ∧ (raw = [] ∨ is_Some alert))
     ∨ (∃ part0 part1 rest startMin endMin,
          splitRange raw = part0 :: part1 :: rest
          ∧ parseTimeToMinutes part0 = Some startMin
          ∧ parseTimeToMinutes part1 = Some endMin
          ∧ 0 ≤ startMin ∧ startMin < endMin ∧ endMin ≤ 1440
          ∧ addCustomBlock (Some raw) st
            = (None,
               setDaySlots
                 (λ slots,
                    Some (replaceRangeWithSingleBlock slots startMin
                            (endMin - startMin) [])) st))).
Proof.
  split.
  - intros part0 part1 rest Hsplit Hbad. unfold addCustomBlock.
    destruct raw as [|c raw]; [done|]. rewrite Hsplit.
    destruct Hbad as [->|[Hbad|(startMin & endMin & -> & -> & Hle)]]; [done| |].
    + rewrite Hbad. by destruct (parseTimeToMinutes part0).
    + by destruct (Z.leb_spec endMin startMin); [|lia].
  - unfold addCustomBlock. destruct raw as [|c raw]; [left; eauto|].
    destruct (splitRange (c :: raw)) as [|part0 [|part1 rest]]; [left; eauto..|].
    destruct (parseTimeToMinutes part0) as [startMin|] eqn:H0; [|left; eauto].
    destruct (parseTimeToMinutes part1) as [endMin|] eqn:H1; [|left; eauto].
    destruct (Z.leb_spec endMin startMin); [left; eauto|].
    right. exists part0, part1, rest, startMin, endMin.
    pose proof (parseTimeToMinutes_range _ _ H0).
    pose proof (parseTimeToMinutes_range _ _ H1). unfold MINS_IN_DAY.
    rewrite (Z.max_r 0 (Z.min (1440 - 1) startMin)) by lia.
    rewrite (Z.min_r (1440 - 1) startMin) by lia.
    rewrite (Z.max_r 1 (Z.min 1440 endMin)) by lia.
    rewrite (Z.min_r 1440 endMin) by lia.
    repeat split; try done; lia.
Qed.

(** C10.  With a block index that is out of range for the partition of
    the source day, the propagation returns the state as it is, for all
    seven days and in every mode. *)
Theorem applyBlockToAllDays_out_of_range (uid_at : nat → string)
    (blockIndex : nat) mode st srcSlots :
  schedule st !! dayKey (selectedDay st) = Some srcSlots →
  (length srcSlots ≤ blockIndex)%nat →
  applyBlockToAllDays uid_at blockIndex mode st = Some st.
Proof.
  intros Hsrc Hout. unfold applyBlockToAllDays. rewrite Hsrc. simpl.
  by rewrite (lookup_ge_None_2 srcSlots blockIndex Hout).
Qed.

(** ** The claims at concrete inputs *)

Lemma dayWithBlock_valid ts : valid_partition (dayWithBlock ts).
Proof. apply valid_partition_chain. simpl. repeat split; lia. Qed.

Lemma gymWeek_valid : valid_schedule (schedule gymWeek).
Proof.
  unfold gymWeek. cbn [schedule].
  apply valid_schedule_insert; [|apply dayWithBlock_valid].
  apply valid_schedule_insert; [|apply dayWithBlock_valid].
  apply defaultSchedule_valid.
Qed.

(** C3 as stated fails: a block strictly inside the spliced range can
    share a task with a block that is kept as a remainder, and that
    task is still in the result.  Monday of [duplicatingSession] has
    task "A" both in [0,60) and in [120,180); splicing [30,200) keeps
    "A" on the left remainder [0,30). *)
Lemma interior_task_can_survive :
  let interior := {| start := 120; span := 60; tasks := [sharedTask] |} in
  (run letter_ids duplicatingSession (initialPlanner 1)
     ≫= λ st, schedule st !! "Monday"%string) = Some sharedTaskDay
  ∧ valid_partition sharedTaskDay
  ∧ sharedTaskDay !! 2%nat = Some interior
  ∧ 30 < start interior ∧ endOf interior < 30 + 170
  ∧ sharedTask ∈ tasks interior
  ∧ take 3 (replaceRangeWithSingleBlock sharedTaskDay 30 170 [])
    = [ {| start := 0; span := 30; tasks := [sharedTask] |};
        {| start := 30; span := 170; tasks := [] |};
        {| start := 200; span := 40; tasks := [] |} ]
  ∧ sharedTask ∈ all_tasks (replaceRangeWithSingleBlock sharedTaskDay 30 170 []).
Proof.
  cbv zeta. split; [by vm_compute|].
  split; [apply valid_partition_chain; vm_compute; repeat split; discriminate|].
  split; [done|]. split; [simpl; lia|]. split; [unfold endOf; simpl; lia|].
  split; [simpl; left|]. split; [by vm_compute|].
  apply elem_of_all_tasks.
  exists {| start := 0; span := 30; tasks := [sharedTask] |}.
  split; [vm_compute; left|simpl; left].
Qed.

(** C6 as stated fails: when the id source repeats itself, Monday's
    copy and Tuesday's copy of "gym" carry the same id. *)
Lemma replace_mode_ids_can_coincide :
  let after := applyBlockToAllDays constant_ids 1 "replace" gymWeek in
  let copy := {| Task.id := "k3x9q2a"; Task.text := "gym"; Task.done := false |} in
  (after ≫= λ st, filter (at_range 90 60) <$> schedule st !! "Monday"%string)
  = Some [ {| start := 90; span := 60; tasks := [copy] |} ]
  ∧ (after ≫= λ st, filter (at_range 90 60) <$> schedule st !! "Tuesday"%string)
    = Some [ {| start := 90; span := 60; tasks := [copy] |} ].
Proof. split; by vm_compute. Qed.

Lemma partition_invariant_witness :
  Forall op_ok sampleSession
  ∧ ∃ st, run letter_ids sampleSession (initialPlanner 1) = Some st
      ∧ (∀ d, d ∈ DAYS → is_Some (schedule st !! d))
      ∧ ∀ d p, schedule st !! d = Some p →
          sorted_by_start p ∧ contiguous p ∧ covers_day p ∧ positive_spans p.
Proof.
  assert (Forall op_ok sampleSession) as Hok.
  { repeat constructor; simpl; lia. }
  split; [exact Hok|].
  destruct (run letter_ids sampleSession (initialPlanner 1)) as [st|] eqn:Hrun.
  - exists st. split; [reflexivity|].
    exact (partition_invariant letter_ids 1 sampleSession st Hok Hrun).
  - vm_compute in Hrun. discriminate Hrun.
Defined.

Lemma replaceRange_splices_request_witness :
  valid_partition defaultDay
  ∧ valid_partition (replaceRangeWithSingleBlock defaultDay 30 120 [gymTask])
  ∧ filter (at_range 30 120) (replaceRangeWithSingleBlock defaultDay 30 120 [gymTask])
    = [ {| start := 30; span := 120; tasks := [gymTask] |} ].
Proof.
  split; [apply defaultDay_valid|].
  pose proof (replaceRange_splices_request defaultDay 30 120 [gymTask]
                defaultDay_valid ltac:(lia) ltac:(lia) ltac:(lia)) as H.
  cbv zeta in H. destruct H as (H1 & H2 & _). split; [exact H1|exact H2].
Defined.

Lemma replaceRange_redistributes_tasks_witness :
  valid_partition (dayWithBlock [gymTask])
  ∧ gymTask ∉ all_tasks (replaceRangeWithSingleBlock (dayWithBlock [gymTask]) 60 120 []).
Proof.
  split; [apply dayWithBlock_valid|].
  pose proof (replaceRange_redistributes_tasks (dayWithBlock [gymTask]) 60 120 []
                (dayWithBlock_valid _) ltac:(lia) ltac:(lia) ltac:(lia)) as H.
  cbv zeta in H. destruct H as (_ & H & _). apply H.
  - apply not_elem_of_nil.
  - intros b Hb Ht. unfold dayWithBlock in Hb.
    rewrite !elem_of_cons, elem_of_nil in Hb.
    destruct Hb as [->|[->|[->|[]]]]; simpl in Ht.
    + by apply elem_of_nil in Ht.
    + unfold endOf. simpl. lia.
    + by apply elem_of_nil in Ht.
Defined.

Lemma replace_mode_copies_witness :
  valid_schedule (schedule gymWeek)
  ∧ ∃ st',
      applyBlockToAllDays letter_ids 1 "replace" gymWeek = Some st'
      ∧ ∃ p copies,
          schedule st' !! "Wednesday"%string = Some p
          ∧ filter (at_range 90 60) p
            = [ {| start := 90; span := 60; tasks := copies |} ]
          ∧ copies !! 0%nat
            = Some {| Task.id := "d"; Task.text := "gym"; Task.done := false |}.
Proof.
  split; [apply gymWeek_valid|].
  destruct (replace_mode_copies letter_ids 1 gymWeek (dayWithBlock [gymTask])
              {| start := 90; span := 60; tasks := [gymTask] |}
              gymWeek_valid eq_refl eq_refl) as (st' & Heq & Hdays & _).
  exists st'. split; [exact Heq|].
  destruct (Hdays 3%nat "Wednesday"%string eq_refl) as (p & copies & Hp & Hf & _ & Hk).
  exists p, copies. split; [exact Hp|]. split; [exact Hf|].
  exact (Hk 0%nat gymTask eq_refl).
Defined.

Lemma mergeSlots_spec_witness :
  valid_partition defaultDay
  ∧ mergeSlots 0 defaultDay
    = Some ({| start := 0; span := 120; tasks := [] |} :: drop 2 defaultDay)
  ∧ mergeSlots 23 defaultDay = Some defaultDay.
Proof.
  split; [apply defaultDay_valid|]. split.
  - exact (proj1 (mergeSlots_spec defaultDay 0)
             {| start := 0; span := 60; tasks := [] |}
             {| start := 60; span := 60; tasks := [] |}
             defaultDay_valid eq_refl eq_refl).
  - apply (proj1 (proj2 (mergeSlots_spec defaultDay 23))). simpl. lia.
Defined.

Lemma unmergeSlot_not_inverse_of_merge_witness :
  unmergeSlot 0 [ {| start := 0; span := 180; tasks := [gymTask] |} ]
  = Some [ {| start := 0; span := 60; tasks := [gymTask] |};
           {| start := 60; span := 120; tasks := [] |} ].
Proof.
  apply (proj1 (unmergeSlot_not_inverse_of_merge
                  [ {| start := 0; span := 180; tasks := [gymTask] |} ] 0
                  {| start := 0; span := 180; tasks := [gymTask] |} eq_refl)).
  simpl. lia.
Defined.

Lemma addCustomBlock_rejects_bad_range_witness :
  (addCustomBlock (Some (ustr "10 - 9:30")) gymWeek).2 = Some gymWeek
  ∧ (addCustomBlock (Some (ustr "soon - 9:30")) gymWeek).2 = Some gymWeek.
Proof.
  split.
  - apply (proj1 (addCustomBlock_rejects_bad_range (ustr "10 - 9:30") gymWeek)
             (ustr "10 ") (ustr " 9:30") []); [reflexivity|].
    right. right. exists 600, 570. repeat split. lia.
  - apply (proj1 (addCustomBlock_rejects_bad_range (ustr "soon - 9:30") gymWeek)
             (ustr "soon ") (ustr " 9:30") []); [reflexivity|].
    left. reflexivity.
Defined.

Lemma applyBlockToAllDays_out_of_range_witness :
  applyBlockToAllDays letter_ids 3 "replace" gymWeek = Some gymWeek.
Proof.
  apply (applyBlockToAllDays_out_of_range letter_ids 3 "replace" gymWeek
           (dayWithBlock [gymTask])); [reflexivity|simpl; lia].
Defined.

(** * Further properties of the planner *)

(** ** Checking a property on the integers below a bound *)

Lemma forall_below (P : Z → bool) (n : Z) :
  forallb P (Z.of_nat <$> seq 0 (Z.to_nat n)) = true →
  ∀ z, 0 ≤ z < n → P z = true.
Proof.
  intros Hall z Hz. apply (proj1 (forallb_forall _ _) Hall).
  apply list_elem_of_In, list_elem_of_fmap. exists (Z.to_nat z).
  split; [lia|]. apply elem_of_seq. lia.
Qed.

Lemma is_Some_Z (o : option Z) z :
  match o with Some v => v =? z | None => false end = true → o = Some z.
Proof. destruct o as [v|]; [|done]. by intros ->%Z.eqb_eq. Qed.

(** ** Labels and the time parser *)

Lemma minsToLabel_wraps m : minsToLabel m = minsToLabel (m `mod` 1440).
Proof.
  unfold minsToLabel, MINS_IN_DAY.
  assert (((m `mod` 1440) `rem` 1440 + 1440) `rem` 1440
          = (m `rem` 1440 + 1440) `rem` 1440) as ->; [|done].
  Z.to_euclidean_division_equations. lia.
Qed.

Lemma label_parses_back_in_day z :
  0 ≤ z < 1440 → parseTimeToMinutes (minsToLabel z) = Some z.
Proof.
  intros Hz. apply is_Some_Z.
  apply (forall_below
           (λ z, match parseTimeToMinutes (minsToLabel z) with
                 | Some v => v =? z
                 | None => false
                 end) 1440); [by vm_compute|lia].
Qed.

(** X1.  The label of a minute parses back to that minute: for every
    integer [m], also negative or beyond the day, parsing
    [minsToLabel m] gives [m] modulo 1440. *)
Theorem label_parses_back m :
  parseTimeToMinutes (minsToLabel m) = Some (m `mod` 1440).
Proof.
  rewrite minsToLabel_wraps. apply label_parses_back_in_day.
  apply Z.mod_pos_bound. lia.
Qed.

(** X2.  Whatever text it is given, the time parser answers [NaN] or a
    minute of the day, from 0 to 1439. *)
Theorem parseTimeToMinutes_minute_of_day x v :
  parseTimeToMinutes x = Some v → 0 ≤ v < MINS_IN_DAY.
Proof.
  intros H. pose proof (parseTimeToMinutes_range x v H). unfold MINS_IN_DAY. lia.
Qed.

Lemma trimStart_idemp s : trimStart (trimStart s) = trimStart s.
Proof.
  induction s as [|c s IH]; [done|]. simpl.
  destruct (isWhiteSpace c) eqn:Hc; [done|]. simpl. by rewrite Hc.
Qed.

Lemma trimStart_snoc s c :
  isWhiteSpace c = false → trimStart (s ++ [c]) = trimStart s ++ [c].
Proof.
  intros Hc. induction s as [|d s IH]; simpl; [by rewrite Hc|].
  by destruct (isWhiteSpace d).
Qed.

Lemma trimStart_head s :
  trimStart s = [] ∨ ∃ c s', trimStart s = c :: s' ∧ isWhiteSpace c = false.
Proof.
  induction s as [|c s IH]; [by left|]. simpl.
  destruct (isWhiteSpace c) eqn:Hc; [done|]. right. eauto.
Qed.

Lemma trimEnd_cons c s :
  isWhiteSpace c = false → trimEnd (c :: s) = c :: trimEnd s.
Proof.
  intros Hc. unfold trimEnd.
  by rewrite reverse_cons, trimStart_snoc, reverse_app.
Qed.

Lemma trimEnd_idemp s : trimEnd (trimEnd s) = trimEnd s.
Proof. unfold trimEnd. by rewrite reverse_involutive, trimStart_idemp. Qed.

Lemma trim_idemp s : trim (trim s) = trim s.
Proof.
  unfold trim. destruct (trimStart_head s) as [->|(c & s' & -> & Hc)]; [done|].
  rewrite (trimEnd_cons c s' Hc). simpl. rewrite Hc.
  by rewrite <- (trimEnd_cons c s' Hc), trimEnd_idemp.
Qed.

(** X3.  White space around the text does not matter to the time
    parser: the text and the trimmed text parse alike. *)
Theorem parseTimeToMinutes_ignores_outer_space s :
  parseTimeToMinutes (trim s) = parseTimeToMinutes s.
Proof.
  unfold parseTimeToMinutes. rewrite trim_idemp.
  destruct s as [|c s]; [done|].
  rewrite (bool_decide_eq_false_2 (c :: s = [])) by done.
  case_bool_decide as Hempty; [|done].
  rewrite Hempty. by vm_compute.
Qed.

Lemma two_digit_times_parse z :
  0 ≤ z < 10000 →
  let h := z `div` 100 in
  let m := z `mod` 100 in
  parseTimeToMinutes
    (padStart 2 48 (numberToString h) ++ ustr ":" ++ padStart 2 48 (numberToString m))
  = Some (Z.min 23 h * 60 + Z.min 59 m)
  ∧ parseTimeToMinutes (numberToString h ++ padStart 2 48 (numberToString m))
    = Some (Z.min 23 h * 60 + Z.min 59 m).
Proof.
  intros Hz. cbv zeta. split; apply is_Some_Z.
  - apply (forall_below
             (λ z, match parseTimeToMinutes
                           (padStart 2 48 (numberToString (z `div` 100)) ++ ustr ":"
                              ++ padStart 2 48 (numberToString (z `mod` 100))) with
                   | Some v => v =? Z.min 23 (z `div` 100) * 60 + Z.min 59 (z `mod` 100)
                   | None => false
                   end) 10000); [by vm_compute|lia].
  - apply (forall_below
             (λ z, match parseTimeToMinutes
                           (numberToString (z `div` 100)
                              ++ padStart 2 48 (numberToString (z `mod` 100))) with
                   | Some v => v =? Z.min 23 (z `div` 100) * 60 + Z.min 59 (z `mod` 100)
                   | None => false
                   end) 10000); [by vm_compute|lia].
Qed.

(** X4.  Twenty-four-hour input, with clamping instead of rejection:
    for an hour [h] and a minute [m] below 100, both "HH:MM" and the
    compact digits "HMM" / "HHMM" parse to [min(h, 23) * 60 +
    min(m, 59)]. *)
Theorem parseTimeToMinutes_clamps h m :
  0 ≤ h < 100 → 0 ≤ m < 100 →
  parseTimeToMinutes
    (padStart 2 48 (numberToString h) ++ ustr ":" ++ padStart 2 48 (numberToString m))
  = Some (Z.min 23 h * 60 + Z.min 59 m)
  ∧ parseTimeToMinutes (numberToString h ++ padStart 2 48 (numberToString m))
    = Some (Z.min 23 h * 60 + Z.min 59 m).
Proof.
  intros Hh Hm. pose proof (two_digit_times_parse (h * 100 + m)) as H.
  cbv zeta in H.
  replace ((h * 100 + m) `div` 100) with h in H by (Z.div_mod_to_equations; lia).
  replace ((h * 100 + m) `mod` 100) with m in H by (Z.div_mod_to_equations; lia).
  apply H. lia.
Qed.

(** ** Splitting the typed range *)

Lemma splitRange_cons c raw' :
  splitRange (c :: raw')
  = let push (ps : list ustring) :=
      match ps with
      | p :: ps' => (c :: p) :: ps'
      | [] => [[c]]
      end in
    if isRangeSeparator c then [] :: splitRange raw'
    else
      match raw' with
      | c2 :: raw'' =>
          if (((c =? 116) || (c =? 84)) && ((c2 =? 111) || (c2 =? 79)))%N
          then [] :: splitRange raw''
          else push (splitRange raw')
      | [] => push (splitRange raw')
      end.
Proof. by destruct raw'. Qed.

Lemma splitRange_parts raw :
  (∃ first rest, splitRange raw = first :: rest ∧ first `prefix_of` raw)
  ∧ Forall (Forall (λ c, isRangeSeparator c = false)) (splitRange raw).
Proof.
  cut ((λ raw,
          (∃ first rest, splitRange raw = first :: rest ∧ first `prefix_of` raw)
          ∧ Forall (Forall (λ c, isRangeSeparator c = false)) (splitRange raw)) raw
       ∧ ∀ c,
          (λ raw,
             (∃ first rest, splitRange raw = first :: rest ∧ first `prefix_of` raw)
             ∧ Forall (Forall (λ c, isRangeSeparator c = false)) (splitRange raw))
            (c :: raw)); [tauto|].
  induction raw as [|d raw [IH0 IH1]].
  - split.
    + split; [exists [], []; split; [done|apply prefix_nil]|by repeat constructor].
    + intros c. simpl. destruct (isRangeSeparator c) eqn:Hc.
      * split; [exists [], [[]]; split; [done|apply prefix_nil]|by repeat constructor].
      * split; [by exists [c], []|by repeat constructor].
  - split; [apply IH1|]. intros c. specialize (IH1 d).
    rewrite (splitRange_cons c (d :: raw)). cbv zeta.
    destruct (isRangeSeparator c) eqn:Hc.
    { destruct IH1 as [_ Hall]. split; [|by constructor].
      exists [], (splitRange (d :: raw)). split; [done|apply prefix_nil]. }
    destruct (_ && _).
    { destruct IH0 as [_ Hall]. split; [|by constructor].
      exists [], (splitRange raw). split; [done|apply prefix_nil]. }
    destruct IH1 as [(first & rest & Heq & Hpre) Hall]. rewrite Heq in *.
    apply Forall_cons in Hall as [Hfirst Hrest].
    split; [|by repeat constructor].
    exists (c :: first), rest. split; [done|]. by apply prefix_cons.
Qed.

(** X5.  Splitting the typed range always gives at least one part, the
    first part is a prefix of the text, and no part contains a hyphen,
    an en dash or a tilde. *)
Theorem splitRange_removes_separators raw :
  (∃ first rest, splitRange raw = first :: rest ∧ first `prefix_of` raw)
  ∧ ∀ part c, part ∈ splitRange raw → c ∈ part →
      c ≠ 45%N ∧ c ≠ 8211%N ∧ c ≠ 126%N.
Proof.
  destruct (splitRange_parts raw) as [Hfirst Hall]. split; [done|].
  intros part c Hpart Hc.
  pose proof (proj1 (Forall_forall _ _) (proj1 (Forall_forall _ _) Hall part Hpart) c Hc)
    as Hsep.
  unfold isRangeSeparator in Hsep.
  repeat split; intros ->; by vm_compute in Hsep.
Qed.

(** ** The block shown as current *)

Lemma findIndex_Some {A} (f : A → bool) arr (i : nat) :
  findIndex f arr = Some i →
  ∃ x, arr !! i = Some x ∧ f x = true.
Proof.
  revert i. induction arr as [|y arr IH]; intros i; simpl; [done|].
  destruct (f y) eqn:Hy.
  - intros [= <-]. eauto.
  - destruct (findIndex f arr) as [j|]; [|done]. simpl. intros [= <-].
    by apply IH.
Qed.

Lemma findIndex_None {A} (f : A → bool) arr :
  findIndex f arr = None → Forall (λ x, f x = false) arr.
Proof.
  induction arr as [|y arr IH]; simpl; [by constructor|].
  destruct (f y) eqn:Hy; [done|].
  destruct (findIndex f arr); [done|]. intros _. constructor; [done|by apply IH].
Qed.

Lemma chain_covers lo hi p m :
  chain lo hi p → lo ≤ m < hi → ∃ b, b ∈ p ∧ start b ≤ m < endOf b.
Proof.
  unfold endOf. revert lo. induction p as [|c p IH]; intros lo Hc Hm; simpl in Hc; [lia|].
  destruct Hc as (H1 & H2 & H3).
  destruct (decide (m < lo + span c)) as [Hlt|Hge].
  - exists c. split; [left|lia].
  - destruct (IH _ H3) as (b & Hb & Hbm); [lia|]. exists b. split; [by right|done].
Qed.

Lemma isCurrentBlock_in_day m b :
  0 ≤ start b → 1 ≤ span b → endOf b ≤ 1440 → 0 ≤ m < 1440 →
  isCurrentBlock m b = true ↔ start b ≤ m < endOf b.
Proof.
  unfold endOf, isCurrentBlock, MINS_IN_DAY. intros H0 H1 H2 Hm.
  destruct (Z.leb_spec 1440 (span b)); [split; [lia|done]|].
  assert (start b `rem` 1440 = start b) as -> by (apply Z.rem_small; lia).
  destruct (decide (start b + span b = 1440)) as [Heq|Hne].
  - rewrite Heq. change (1440 `rem` 1440) with 0.
    destruct (Z.ltb_spec (start b) 0); [lia|].
    rewrite orb_true_iff, Z.leb_le, Z.ltb_lt. lia.
  - assert ((start b + span b) `rem` 1440 = start b + span b) as ->
      by (apply Z.rem_small; lia).
    destruct (Z.ltb_spec (start b) (start b + span b)); [|lia].
    rewrite andb_true_iff, Z.leb_le, Z.ltb_lt. lia.
Qed.

Lemma findCurrentBlockIndex_chain p currentMinute (isToday : bool) :
  chain 0 1440 p → 0 ≤ currentMinute < 1440 →
  ∃ b, p !! findCurrentBlockIndex currentMinute p isToday = Some b
       ∧ start b ≤ (if isToday then currentMinute else 0) < endOf b.
Proof.
  intros Hp Hcm. set (m := if isToday then currentMinute else 0).
  unfold findCurrentBlockIndex.
  assert ((if isToday then currentMinute `rem` MINS_IN_DAY else 0) = m) as ->.
  { unfold m. destruct isToday; [|done]. apply Z.rem_small. unfold MINS_IN_DAY. lia. }
  assert (0 ≤ m < 1440) as Hm by (unfold m; destruct isToday; lia).
  destruct (findIndex (isCurrentBlock m) p) as [idx|] eqn:Hfind.
  - destruct (findIndex_Some _ _ _ Hfind) as (b & Hb & Hcur). exists b.
    split; [done|].
    destruct (chain_bounds _ _ _ _ Hp (list_elem_of_lookup_2 _ _ _ Hb)) as (? & ? & ?).
    by apply isCurrentBlock_in_day.
  - destruct (chain_covers _ _ _ m Hp Hm) as (b & Hb & Hbm).
    pose proof (proj1 (Forall_forall _ _) (findIndex_None _ _ Hfind) b Hb) as Hno.
    destruct (chain_bounds _ _ _ _ Hp Hb) as (? & ? & ?).
    apply (isCurrentBlock_in_day m b) in Hbm; try done. congruence.
Qed.

(** X6.  On a valid partition the compact view starts at the block
    that contains the minute looked for: the current minute when the
    selected day is today, minute 0 otherwise. *)
Theorem findCurrentBlockIndex_contains_minute p currentMinute (isToday : bool) :
  valid_partition p → 0 ≤ currentMinute < 1440 →
  let m := if isToday then currentMinute else 0 in
  ∃ b, p !! findCurrentBlockIndex currentMinute p isToday = Some b
       ∧ start b ≤ m < endOf b.
Proof.
  intros Hp%valid_partition_chain Hcm. by apply findCurrentBlockIndex_chain.
Qed.

(** X7.  Whatever the blocks and the clock, the index returned for the
    compact view is the index of an existing block as soon as there is
    one block; on an empty day it is 0. *)
Theorem findCurrentBlockIndex_in_range slots currentMinute (isToday : bool) :
  (slots ≠ [] → (findCurrentBlockIndex currentMinute slots isToday < length slots)%nat)
  ∧ findCurrentBlockIndex currentMinute [] isToday = 0%nat.
Proof.
  split; [|done]. intros Hne. unfold findCurrentBlockIndex.
  destruct (findIndex _ slots) as [idx|] eqn:Hfind.
  - destruct (findIndex_Some _ _ _ Hfind) as (b & Hb & _). by apply lookup_lt_Some in Hb.
  - destruct (findIndex (λ s, _ <=? start s) slots) as [idx|] eqn:Hfall.
    + destruct (findIndex_Some _ _ _ Hfall) as (b & Hb & _). by apply lookup_lt_Some in Hb.
    + destruct slots; [done|]. simpl length. lia.
Qed.

Lemma slice_window {A} (arr : list A) (idx : nat) :
  slice arr idx (Nat.min (idx + 3) (length arr)) = take 3 (drop idx arr).
Proof.
  unfold slice.
  destruct (decide (idx + 3 ≤ length arr)%nat) as [Hle|Hgt].
  - rewrite Nat.min_l by done. f_equal. lia.
  - rewrite Nat.min_r by lia.
    rewrite !take_ge; [done|rewrite length_drop; lia..].
Qed.

(** X8.  On a valid schedule with one of the seven days selected, the
    compact view shows the block that contains the minute looked for,
    followed by the next blocks of that day, at most two of them. *)
Theorem getCompactWindow_shows_current_block currentMinute (todayIdx : nat) st :
  valid_schedule (schedule st) → (selectedDay st < 7)%nat →
  0 ≤ currentMinute < 1440 →
  let m := if bool_decide (selectedDay st = todayIdx) then currentMinute else 0 in
  ∃ p before b later,
    schedule st !! dayKey (selectedDay st) = Some p
    ∧ p = before ++ b :: later
    ∧ start b ≤ m < endOf b
    ∧ getCompactWindow currentMinute todayIdx st
      = Some (compactItem b :: (compactItem <$> take 2 later)).
Proof.
  intros Hv Hsel Hcm m.
  destruct (proj1 Hv _ (dayKey_in_DAYS _ Hsel)) as [p Hp].
  pose proof (proj1 (valid_partition_chain p) (proj2 Hv _ _ Hp)) as Hc.
  destruct (findCurrentBlockIndex_chain p currentMinute
              (bool_decide (selectedDay st = todayIdx)) Hc Hcm) as (b & Hb & Hbm).
  set (idx := findCurrentBlockIndex _ _ _) in Hb.
  exists p, (take idx p), b, (drop (S idx) p).
  split; [done|]. split; [by rewrite take_drop_middle|]. split; [done|].
  unfold getCompactWindow. rewrite Hp. cbn [mbind option_bind]. fold idx.
  by rewrite slice_window, (drop_S p b idx Hb).
Qed.

(** X9.  The rows of the compact view join up: on a valid partition
    the end label of a block is the start label of the block after it,
    and the end label of the last block is "12:00 AM". *)
Theorem compactItem_labels_join p :
  valid_partition p →
  (∀ (i : nat) a b, p !! i = Some a → p !! S i = Some b →
     endLabel (compactItem a) = startLabel (compactItem b))
  ∧ (∀ b, last p = Some b → endLabel (compactItem b) = ustr "12:00 AM").
Proof.
  intros Hp%valid_partition_chain. split.
  - intros i a b Ha Hb. simpl.
    pose proof (chain_lookup_succ _ _ _ _ _ _ Hp Ha Hb) as Hadj. unfold endOf in Hadj.
    destruct (chain_bounds _ _ _ _ Hp (list_elem_of_lookup_2 _ _ _ Hb)) as (? & ? & Hend).
    destruct (chain_bounds _ _ _ _ Hp (list_elem_of_lookup_2 _ _ _ Ha)) as (? & ? & _).
    unfold endOf in Hend. rewrite Hadj. f_equal. apply Z.rem_small.
    unfold MINS_IN_DAY. lia.
  - intros b Hb. simpl. pose proof (chain_last _ _ _ _ Hp Hb) as Hend.
    unfold endOf in Hend. rewrite Hend. by vm_compute.
Qed.

(** ** Merging and splitting *)

Lemma all_tasks_app p q : all_tasks (p ++ q) = all_tasks p ++ all_tasks q.
Proof. unfold all_tasks. by rewrite fmap_app, join_app. Qed.

Lemma all_tasks_cons b p : all_tasks (b :: p) = tasks b ++ all_tasks p.
Proof. done. Qed.

(** X10.  Splitting a block of more than 60 minutes and merging again
    at the same index gives back the partition exactly, tasks
    included. *)
Theorem unmerge_then_merge_restores p (i : nat) s :
  p !! i = Some s → 60 < span s →
  unmergeSlot i p ≫= mergeSlots i = Some p.
Proof.
  intros Hs Hsp. rewrite (unmergeSlot_split i p s Hs Hsp). cbn [mbind option_bind].
  destruct (lookup_split p i s Hs) as [Hp Hlen].
  pose proof (mergeSlots_middle (take i p)
                {| start := start s; span := 60; tasks := tasks s |}
                {| start := start s + 60; span := span s - 60; tasks := [] |}
                (drop (S i) p) eq_refl) as Hm.
  rewrite Hlen in Hm. rewrite Hm. cbn [start span tasks].
  assert ({| start := start s; span := 60 + (span s - 60); tasks := tasks s ++ [] |} = s)
    as ->; [|by rewrite <- Hp].
  destruct s as [st sp ts]. simpl. f_equal; lia || apply app_nil_r.
Qed.

(** X11.  Merging and splitting never lose, duplicate or reorder
    tasks: the tasks of the day, read block after block, are the same
    before and after. *)
Theorem merge_unmerge_keep_tasks (i : nat) p q :
  (mergeSlots i p = Some q → all_tasks q = all_tasks p)
  ∧ (unmergeSlot i p = Some q → all_tasks q = all_tasks p).
Proof.
  split.
  - intros Hm. destruct (decide (length p ≤ S i)%nat) as [H|H].
    { rewrite mergeSlots_last in Hm by done. by injection Hm as <-. }
    destruct (lookup_lt_is_Some_2 p i) as [a Ha]; [lia|].
    destruct (lookup_lt_is_Some_2 p (S i)) as [b Hb]; [lia|].
    destruct (decide (start a + span a = start b)) as [Hadj|Hne].
    + rewrite (mergeSlots_merge i p a b Ha Hb Hadj) in Hm. injection Hm as <-.
      destruct (lookup_split2 p i a b Ha Hb) as [Hp _].
      transitivity (all_tasks (take i p ++ a :: b :: drop (S (S i)) p));
        [|by rewrite <- Hp].
      rewrite !all_tasks_app, !all_tasks_cons. simpl. by rewrite <- app_assoc.
    + rewrite (mergeSlots_not_adjacent i p a b Ha Hb Hne) in Hm. by injection Hm as <-.
  - intros Hu. destruct (p !! i) as [s|] eqn:Hs.
    + destruct (decide (span s ≤ 60)) as [H|H].
      * rewrite (unmergeSlot_small i p s) in Hu by done. by injection Hu as <-.
      * rewrite (unmergeSlot_split i p s) in Hu by (done || lia). injection Hu as <-.
        destruct (lookup_split p i s Hs) as [Hp _].
        transitivity (all_tasks (take i p ++ s :: drop (S i) p)); [|by rewrite <- Hp].
        by rewrite !all_tasks_app, !all_tasks_cons.
    + rewrite unmergeSlot_outside in Hu by done. by injection Hu as <-.
Qed.

(** ** The task updaters *)

Lemma filter_all {A} (P : A → Prop) `{!∀ x, Decision (P x)} (l : list A) :
  Forall P l → filter P l = l.
Proof.
  induction 1 as [|x l Hx Hl IH]; [done|].
  rewrite filter_cons. destruct (decide (P x)); [by rewrite IH|done].
Qed.

Lemma with_tasks_twice blk ts ts' :
  with_tasks (with_tasks blk ts) ts' = with_tasks blk ts'.
Proof. done. Qed.

(** X12.  Removing the task that was just added gives back the
    partition, as long as no task of the block already had the id
    drawn for the new task. *)
Theorem add_then_remove_restores (i : nat) newId text p blk :
  p !! i = Some blk →
  Forall (λ x, Task.id x ≠ newId) (tasks blk) →
  addTask i newId text p ≫= removeTask i newId = Some p.
Proof.
  intros Hi Hfresh. unfold addTask. rewrite Hi. cbn [mbind option_bind].
  unfold removeTask. rewrite list_lookup_insert_eq by (by apply lookup_lt_Some in Hi).
  cbn [mbind option_bind]. f_equal.
  rewrite list_insert_insert_eq, with_tasks_twice. cbn [with_tasks tasks].
  rewrite filter_app, (filter_all _ _ Hfresh), filter_cons.
  destruct (decide _) as [Hne|_]; [done|].
  rewrite filter_nil, app_nil_r, with_tasks_same. by apply list_insert_id.
Qed.

(** X13.  After removing a task id from a block, no task of that block
    has this id, the block boundaries of the day are as before, and
    removing the id again changes nothing. *)
Theorem removeTask_removes_id (i : nat) tid p q :
  removeTask i tid p = Some q →
  (∃ blk, q !! i = Some blk ∧ Forall (λ x, Task.id x ≠ tid) (tasks blk))
  ∧ (λ b, (start b, span b)) <$> q = (λ b, (start b, span b)) <$> p
  ∧ removeTask i tid q = Some q.
Proof.
  unfold removeTask. destruct (p !! i) as [blk|] eqn:Hi; [|done].
  cbn [mbind option_bind]. intros [= <-].
  pose proof (lookup_lt_Some _ _ _ Hi) as Hlt.
  rewrite list_lookup_insert_eq by done. cbn [mbind option_bind].
  split; [|split].
  - eexists. split; [done|]. simpl. apply Forall_forall.
    by intros x [Hx _]%list_elem_of_filter.
  - rewrite list_fmap_insert. simpl. apply list_insert_id.
    by rewrite list_lookup_fmap, Hi.
  - f_equal. rewrite list_insert_insert_eq, with_tasks_twice. cbn [with_tasks tasks].
    rewrite filter_all; [done|]. apply Forall_forall.
    by intros x [Hx _]%list_elem_of_filter.
Qed.

(** X14.  Updating a task id that no task of the block has changes
    nothing; in any case an update keeps the number of tasks of the
    block and the block boundaries of the day. *)
Theorem updateTask_absent_id (i : nat) tid patch p blk :
  p !! i = Some blk →
  (Forall (λ x, Task.id x ≠ tid) (tasks blk) → updateTask i tid patch p = Some p)
  ∧ ∃ ts, updateTask i tid patch p = Some (<[i := with_tasks blk ts]> p)
          ∧ length ts = length (tasks blk).
Proof.
  intros Hi. unfold updateTask. rewrite Hi. cbn [mbind option_bind]. split.
  - intros Habsent. f_equal.
    assert ((λ x, if String.eqb (Task.id x) tid then applyPatch x patch else x)
              <$> tasks blk = tasks blk) as ->.
    { induction Habsent as [|x l Hx Hl IH]; [done|].
      rewrite fmap_cons, IH. by rewrite (proj2 (String.eqb_neq _ _) Hx). }
    rewrite with_tasks_same. by apply list_insert_id.
  - eexists. split; [done|]. by rewrite length_fmap.
Qed.

(** X15.  The three task updaters throw exactly when there is no block
    at the index they are given. *)
Theorem task_updaters_throw_out_of_range (i : nat) newId text tid patch p :
  (addTask i newId text p = None ↔ (length p ≤ i)%nat)
  ∧ (updateTask i tid patch p = None ↔ (length p ≤ i)%nat)
  ∧ (removeTask i tid p = None ↔ (length p ≤ i)%nat).
Proof.
  unfold addTask, updateTask, removeTask.
  repeat split; rewrite <- lookup_ge_None; destruct (p !! i); done.
Qed.

(** ** More on the range splicer *)

Lemma replaceRange_exact_chain lo hi p (i : nat) b newTasks :
  chain lo hi p → p !! i = Some b →
  replaceRangeWithSingleBlock p (start b) (span b) newTasks
  = <[i := with_tasks b newTasks]> p.
Proof.
  revert lo i. induction p as [|c p IH]; intros lo i Hc Hi; [done|].
  pose proof (chain_bounds _ _ _ _ Hc (list_elem_of_lookup_2 _ _ _ Hi)) as (_ & Hsp & _).
  destruct Hc as (H1 & H2 & H3). destruct i as [|i]; simpl in Hi.
  - injection Hi as ->. cbn [replaceRangeWithSingleBlock scanRight].
    destruct (Z.leb_spec (start b + span b) (start b)); [lia|].
    destruct (Z.leb_spec (start b + span b) (start b + span b)); [|lia].
    simpl orb. cbv iota. destruct (Z.ltb_spec (start b) (start b)); [lia|].
    replace (start b + span b - (start b + span b)) with 0 by lia.
    simpl. by rewrite copy_blocks_same.
  - pose proof (chain_bounds _ _ _ _ H3 (list_elem_of_lookup_2 _ _ _ Hi)) as (Hlo & _ & _).
    cbn [replaceRangeWithSingleBlock].
    destruct (Z.leb_spec (start c + span c) (start b)); [|lia].
    simpl orb. cbv iota. rewrite with_tasks_same. simpl. f_equal.
    by apply (IH (lo + span c)).
Qed.

(** X16.  Splicing exactly the range of an existing block of a valid
    partition changes nothing but the tasks of that block, which
    become the new tasks. *)
Theorem replaceRange_exact_block p (i : nat) b newTasks :
  valid_partition p → p !! i = Some b →
  replaceRangeWithSingleBlock p (start b) (span b) newTasks
  = <[i := with_tasks b newTasks]> p.
Proof. intros Hp%valid_partition_chain. by apply (replaceRange_exact_chain 0 1440). Qed.

Lemma replaceRange_twice_chain lo hi p s sp newTasks newTasks' :
  chain lo hi p → lo ≤ s → 1 ≤ sp → s + sp ≤ hi →
  replaceRangeWithSingleBlock
    (replaceRangeWithSingleBlock p s sp newTasks) s sp newTasks'
  = replaceRangeWithSingleBlock p s sp newTasks'.
Proof.
  intros Hc Hlo Hsp Hhi.
  pose proof (replaceRange_chain lo hi p s sp newTasks Hc Hlo Hsp Hhi) as Hr.
  destruct (replaceRange_shape lo hi p s sp Hc Hlo Hsp Hhi) as
    (before & run & after & first & lst & _ & _ & _ & _ & _ & _ & Heq).
  rewrite (Heq newTasks') , (Heq newTasks) in *.
  set (pre := before ++ leftRemainder first s).
  set (post := rightRemainder lst (s + sp) ++ after).
  assert (before ++ leftRemainder first s
            ++ [ {| start := s; span := sp; tasks := newTasks |} ] ++ post
          = pre ++ {| start := s; span := sp; tasks := newTasks |} :: post) as Hre
    by (unfold pre; by rewrite <- app_assoc).
  fold post in Hr |- *. rewrite Hre in Hr |- *.
  pose proof (replaceRange_exact_chain lo hi _ (length pre)
                {| start := s; span := sp; tasks := newTasks |} newTasks'
                Hr (lookup_middle pre post _)) as Hx.
  cbn [start span] in Hx. rewrite Hx, insert_middle.
  unfold pre. by rewrite <- app_assoc.
Qed.

(** X17.  Splicing the same range twice is splicing it once with the
    tasks given last: the second splice only replaces the tasks of the
    block the first one created. *)
Theorem replaceRange_twice p s sp newTasks newTasks' :
  valid_partition p → 0 ≤ s → 1 ≤ sp → s + sp ≤ 1440 →
  replaceRangeWithSingleBlock
    (replaceRangeWithSingleBlock p s sp newTasks) s sp newTasks'
  = replaceRangeWithSingleBlock p s sp newTasks'.
Proof. intros Hp%valid_partition_chain. by apply replaceRange_twice_chain. Qed.

(** X18.  When no block overlaps the range, as for an empty day or a
    range that falls in a gap of a damaged day, the splicer returns
    the blocks as they are and creates no block. *)
Theorem replaceRange_without_overlap p s sp newTasks :
  Forall (λ b, ¬ overlaps s (s + sp) b) p →
  replaceRangeWithSingleBlock p s sp newTasks = p.
Proof.
  induction 1 as [|b p Hb Hp IH]; [done|].
  cbn [replaceRangeWithSingleBlock]. unfold overlaps, endOf in Hb.
  destruct (Z.leb_spec (start b + span b) s), (Z.leb_spec (s + sp) (start b));
    simpl orb; cbv iota; try (by rewrite with_tasks_same, IH). lia.
Qed.

(** X19.  A splice into a valid partition adds at most two blocks. *)
Theorem replaceRange_length p s sp newTasks :
  valid_partition p → 0 ≤ s → 1 ≤ sp → s + sp ≤ 1440 →
  (1 ≤ length (replaceRangeWithSingleBlock p s sp newTasks) ≤ length p + 2)%nat.
Proof.
  intros Hp%valid_partition_chain Hs Hsp Hend.
  destruct (replaceRange_shape 0 1440 p s sp Hp Hs Hsp Hend) as
    (before & run & after & first & lst & [Hsplit Hh _ _ _ _] & _ & _ & _ & _ & _ & Heq).
  rewrite Heq, Hsplit, !length_app. simpl.
  assert (1 ≤ length run)%nat by (destruct run; [done|simpl; lia]).
  unfold leftRemainder, rightRemainder.
  destruct (_ <? _), (_ <? _); simpl; lia.
Qed.

(** ** Actions on the week *)

Lemma setDaySlots_other_days updater st st' d :
  setDaySlots updater st = Some st' → d ≠ dayKey (selectedDay st) →
  schedule st' !! d = schedule st !! d.
Proof.
  unfold setDaySlots. intros Hset Hd.
  destruct (schedule st !! dayKey (selectedDay st)) as [slots|]; [|done].
  simpl in Hset. destruct (updater slots) as [next|]; [|done].
  simpl in Hset. injection Hset as <-. simpl. by rewrite lookup_insert_ne.
Qed.

(** X20.  Every action but the propagation to all days leaves the
    partitions of the days that are not selected as they were. *)
Theorem step_changes_selected_day_only (uid_at : nat → string) op st st' d :
  step uid_at op st = Some st' →
  (∀ blockIndex mode, op ≠ OpApplyBlockToAllDays blockIndex mode) →
  d ≠ dayKey (selectedDay st) →
  schedule st' !! d = schedule st !! d.
Proof.
  intros Hstep Hop Hd. destruct op; simpl in Hstep.
  - by injection Hstep as <-.
  - by apply (setDaySlots_other_days _ _ _ _ Hstep).
  - by apply (setDaySlots_other_days _ _ _ _ Hstep).
  - destruct text as [[|c text]|]; [by injection Hstep as <-| |by injection Hstep as <-].
    destruct (setDaySlots _ st) as [st2|] eqn:Hset; [|done].
    simpl in Hstep. injection Hstep as <-. simpl.
    by apply (setDaySlots_other_days _ _ _ _ Hset).
  - by apply (setDaySlots_other_days _ _ _ _ Hstep).
  - by apply (setDaySlots_other_days _ _ _ _ Hstep).
  - by apply (setDaySlots_other_days _ _ _ _ Hstep).
  - by destruct (Hop blockIndex mode).
  - injection Hstep as <-. unfold resetSelectedDay. destruct confirmed; [|done].
    simpl. by rewrite lookup_insert_ne.
  - unfold addCustomBlock in Hstep.
    destruct raw as [[|c raw]|]; [by injection Hstep as <-| |by injection Hstep as <-].
    destruct (splitRange (c :: raw)) as [|part0 [|part1 rest]];
      [by injection Hstep as <-..|].
    destruct (parseTimeToMinutes part0); [|by injection Hstep as <-].
    destruct (parseTimeToMinutes part1); [|by injection Hstep as <-].
    destruct (_ <=? _); [by injection Hstep as <-|].
    cbn [snd] in Hstep. by apply (setDaySlots_other_days _ _ _ _ Hstep).
Qed.

(** X21.  With a mode that is neither "replace" nor "append" the
    propagation still splices the range into every day, with no task
    in the new block, and draws no id. *)
Theorem applyBlockToAllDays_other_mode (uid_at : nat → string) (blockIndex : nat)
    mode st srcSlots srcBlock :
  mode ≠ "replace"%string → mode ≠ "append"%string →
  (∀ d, d ∈ DAYS → is_Some (schedule st !! d)) →
  schedule st !! dayKey (selectedDay st) = Some srcSlots →
  srcSlots !! blockIndex = Some srcBlock →
  ∃ st',
    applyBlockToAllDays uid_at blockIndex mode st = Some st'
    ∧ draws st' = draws st
    ∧ ∀ d, d ∈ DAYS →
        ∃ slots, schedule st !! d = Some slots
          ∧ schedule st' !! d
            = Some (replaceRangeWithSingleBlock slots (start srcBlock)
                      (span srcBlock) []).
Proof.
  intros Hr Ha Hdays Hsrc Hblk.
  assert (∀ slots m,
            applyBlockToDay uid_at mode srcBlock slots m
            = (replaceRangeWithSingleBlock slots (start srcBlock) (span srcBlock) [], m))
    as Hday.
  { intros slots m. unfold applyBlockToDay.
    by rewrite (proj2 (String.eqb_neq _ _) Hr), (proj2 (String.eqb_neq _ _) Ha). }
  destruct (applyBlockToAllDays_spec uid_at mode blockIndex st srcSlots srcBlock 0
              Hsrc Hblk) as (st' & Heq & _ & Hdraws & _ & Hin).
  { intros d Hd. destruct (Hdays d Hd) as [slots Hslots]. exists slots.
    split; [done|]. intros m. rewrite Hday. simpl. lia. }
  exists st'. split; [done|]. split; [lia|].
  intros d [i Hi]%list_elem_of_lookup_1.
  destruct (Hin i d Hi) as (slots & Hslots & Hnew). exists slots.
  split; [done|]. by rewrite Hnew, Hday.
Qed.

Lemma applyBlockToDays_missing_day (uid_at : nat → string) mode srcBlock prev
    days next n d :
  d ∈ days → prev !! d = None →
  applyBlockToDays uid_at mode srcBlock prev days next n = None.
Proof.
  intros Hd Hnone. revert next n.
  induction days as [|d' days IH]; intros next n; [by apply elem_of_nil in Hd|].
  cbn [applyBlockToDays]. destruct (prev !! d') as [slots|] eqn:Hslots; [|done].
  cbn [mbind option_bind].
  destruct (applyBlockToDay uid_at mode srcBlock slots n) as [reshaped n'].
  apply elem_of_cons in Hd as [->|Hd]; [congruence|]. by apply IH.
Qed.

(** X22.  When the schedule lacks one of the seven days, the
    propagation of an existing block throws and no day is updated. *)
Theorem applyBlockToAllDays_missing_day (uid_at : nat → string) (blockIndex : nat)
    mode st srcSlots srcBlock d :
  schedule st !! dayKey (selectedDay st) = Some srcSlots →
  srcSlots !! blockIndex = Some srcBlock →
  d ∈ DAYS → schedule st !! d = None →
  applyBlockToAllDays uid_at blockIndex mode st = None.
Proof.
  intros Hsrc Hblk Hd Hnone. unfold applyBlockToAllDays.
  rewrite Hsrc. cbn [mbind option_bind]. rewrite Hblk.
  by rewrite (applyBlockToDays_missing_day uid_at mode srcBlock _ DAYS _ _ d Hd Hnone).
Qed.

(** X23.  A custom range that parses on both sides with the end after
    the start ends up as a block of the selected day: on a valid
    schedule with one of the seven days selected, the day afterwards
    has exactly one block with that start and that span, it has no
    task, the day is still a valid partition and the other days are
    untouched. *)
Theorem addCustomBlock_creates_block (raw : ustring) st part0 part1 rest
    startMin endMin :
  valid_schedule (schedule st) → (selectedDay st < 7)%nat →
  splitRange raw = part0 :: part1 :: rest →
  parseTimeToMinutes part0 = Some startMin →
  parseTimeToMinutes part1 = Some endMin →
  startMin < endMin →
  ∃ st' day,
    addCustomBlock (Some raw) st = (None, Some st')
    ∧ schedule st' !! dayKey (selectedDay st) = Some day
    ∧ valid_partition day
    ∧ filter (at_range startMin (endMin - startMin)) day
      = [ {| start := startMin; span := endMin - startMin; tasks := [] |} ]
    ∧ ∀ d, d ≠ dayKey (selectedDay st) → schedule st' !! d = schedule st !! d.
Proof.
  intros Hv Hsel Hsplit H0 H1 Hlt.
  destruct (proj1 Hv _ (dayKey_in_DAYS _ Hsel)) as [p Hp].
  pose proof (proj1 (valid_partition_chain p) (proj2 Hv _ _ Hp)) as Hc.
  pose proof (parseTimeToMinutes_range _ _ H0).
  pose proof (parseTimeToMinutes_range _ _ H1).
  unfold addCustomBlock. destruct raw as [|c raw]; [done|].
  rewrite Hsplit, H0, H1. destruct (Z.leb_spec endMin startMin); [lia|].
  unfold MINS_IN_DAY.
  rewrite (Z.max_r 0 (Z.min (1440 - 1) startMin)) by lia.
  rewrite (Z.min_r (1440 - 1) startMin) by lia.
  rewrite (Z.max_r 1 (Z.min 1440 endMin)) by lia.
  rewrite (Z.min_r 1440 endMin) by lia.
  unfold setDaySlots. rewrite Hp. cbn [mbind option_bind].
  eexists _, _. split; [done|]. cbn [schedule with_schedule].
  split; [by rewrite lookup_insert_eq|].
  split; [apply valid_partition_chain, replaceRange_chain; (done || lia)|].
  split; [apply (replaceRange_only_block_at_range 0 1440); (done || lia)|].
  intros d Hd. by rewrite lookup_insert_ne.
Qed.

Lemma DAYS_lookup_dayKey (d : nat) : (d < 7)%nat → DAYS !! d = Some (dayKey d).
Proof.
  intros Hd. unfold dayKey, DAYS. do 7 (destruct d as [|d]; [done|]). lia.
Qed.

(** X24.  On the source day itself the propagation in replace mode
    keeps every block where it is: it only replaces the tasks of the
    source block by their copies with new ids. *)
Theorem replace_mode_on_source_day (uid_at : nat → string) (blockIndex : nat)
    st srcSlots srcBlock :
  valid_schedule (schedule st) → (selectedDay st < 7)%nat →
  schedule st !! dayKey (selectedDay st) = Some srcSlots →
  srcSlots !! blockIndex = Some srcBlock →
  ∃ st',
    applyBlockToAllDays uid_at blockIndex "replace" st = Some st'
    ∧ schedule st' !! dayKey (selectedDay st)
      = Some (<[blockIndex :=
                  with_tasks srcBlock
                    (makeCopies uid_at (tasks srcBlock)
                       (draws st + selectedDay st * length (tasks srcBlock))).1]>
                srcSlots).
Proof.
  intros Hv Hsel Hsrc Hblk.
  destruct (applyBlockToAllDays_spec uid_at "replace" blockIndex st srcSlots srcBlock
              (length (tasks srcBlock)) Hsrc Hblk) as (st' & Heq & _ & _ & _ & Hin).
  { intros d Hd. destruct (proj1 Hv d Hd) as [slots Hslots]. exists slots.
    split; [done|]. intros m. by rewrite applyBlockToDay_replace. }
  exists st'. split; [done|].
  destruct (Hin _ _ (DAYS_lookup_dayKey _ Hsel)) as (slots & Hslots & Hnew).
  rewrite Hsrc in Hslots. injection Hslots as <-.
  rewrite Hnew, applyBlockToDay_replace. cbn [fst]. f_equal.
  apply (replaceRange_exact_chain 0 1440); [|done].
  apply valid_partition_chain. by apply (proj2 Hv _ _ Hsrc).
Qed.

(** * The timer buffer *)

Lemma pad2_two_digits n :
  0 ≤ n < 100 →
  length (pad2 n) = 2%nat ∧ parseIntOrZero (pad2 n) = n
  ∧ Forall (λ c, isDigit c = true) (pad2 n).
Proof.
  intros Hn.
  assert ((Nat.eqb (length (pad2 n)) 2 && (parseIntOrZero (pad2 n) =? n)
           && forallb isDigit (pad2 n)) = true) as H.
  { apply (forall_below
             (λ n, Nat.eqb (length (pad2 n)) 2 && (parseIntOrZero (pad2 n) =? n)
                   && forallb isDigit (pad2 n)) 100); [by vm_compute|done]. }
  apply andb_true_iff in H as [[H1 H2]%andb_true_iff H3].
  split; [by apply Nat.eqb_eq|]. split; [by apply Z.eqb_eq|].
  apply Forall_forall. intros c Hc.
  apply (proj1 (forallb_forall _ _) H3). by apply list_elem_of_In.
Qed.

Lemma toInt32_small n : - 2 ^ 31 ≤ n < 2 ^ 31 → toInt32 n = n.
Proof. intros Hn. unfold toInt32. rewrite Z.mod_small; lia. Qed.

Lemma clamp_limit n : 0 ≤ clamp n 0 LIMIT_SEC ≤ LIMIT_SEC.
Proof. unfold clamp, LIMIT_SEC. lia. Qed.

Lemma slice_fields {A} (a b c : list A) :
  length a = 2%nat → length b = 2%nat → length c = 2%nat →
  slice (a ++ b ++ c) 0 2 = a ∧ slice (a ++ b ++ c) 2 4 = b
  ∧ slice (a ++ b ++ c) 4 6 = c.
Proof.
  destruct a as [|a1 [|a2 [|]]]; try done.
  destruct b as [|b1 [|b2 [|]]]; try done.
  by destruct c as [|c1 [|c2 [|]]].
Qed.

Lemma bufToSec_of_fields h m s :
  0 ≤ h < 100 → 0 ≤ m < 100 → 0 ≤ s < 100 →
  bufToSec (pad2 h ++ pad2 m ++ pad2 s) = clamp (h * 3600 + m * 60 + s) 0 LIMIT_SEC.
Proof.
  intros Hh Hm Hs.
  destruct (pad2_two_digits h Hh) as (Lh & Ph & _).
  destruct (pad2_two_digits m Hm) as (Lm & Pm & _).
  destruct (pad2_two_digits s Hs) as (Ls & Ps & _).
  destruct (slice_fields _ _ _ Lh Lm Ls) as (S1 & S2 & S3).
  unfold bufToSec. by rewrite S1, S2, S3, Ph, Pm, Ps.
Qed.

Lemma secToBuf_fields sec :
  let t := clamp (toInt32 sec) 0 LIMIT_SEC in
  0 ≤ t `div` 3600 < 100 ∧ 0 ≤ (t `rem` 3600) `div` 60 < 100 ∧ 0 ≤ t `rem` 60 < 100
  ∧ t `div` 3600 * 3600 + (t `rem` 3600) `div` 60 * 60 + t `rem` 60 = t.
Proof.
  intros t. pose proof (clamp_limit (toInt32 sec)) as Ht.
  fold t in Ht. unfold LIMIT_SEC in Ht.
  Z.to_euclidean_division_equations. lia.
Qed.

Lemma bufToSec_secToBuf_clamped sec :
  bufToSec (secToBuf sec) = clamp (toInt32 sec) 0 LIMIT_SEC.
Proof.
  destruct (secToBuf_fields sec) as (Hh & Hm & Hs & Hsum).
  unfold secToBuf. cbv zeta in *. rewrite bufToSec_of_fields by done.
  rewrite Hsum. pose proof (clamp_limit (toInt32 sec)) as Ht.
  unfold clamp, LIMIT_SEC in *. lia.
Qed.

(** X25.  Writing seconds to the six-digit buffer and reading them back
    gives the seconds, clamped to 0 .. 23:59:59 (after the 32-bit
    truncation of [sec | 0]); a number of seconds within that range
    comes back as it is, and so does a whole number of seconds given in
    milliseconds. *)
Theorem bufToSec_secToBuf sec :
  bufToSec (secToBuf sec) = clamp (toInt32 sec) 0 LIMIT_SEC
  ∧ (0 ≤ sec ≤ LIMIT_SEC →
       bufToSec (secToBuf sec) = sec ∧ bufToMs (msToBuf (sec * 1000)) = sec * 1000).
Proof.
  split; [apply bufToSec_secToBuf_clamped|]. intros Hsec.
  assert (bufToSec (secToBuf sec) = sec) as Heq.
  { rewrite bufToSec_secToBuf_clamped, toInt32_small by (unfold LIMIT_SEC in *; lia).
    unfold clamp. lia. }
  split; [done|]. unfold bufToMs, msToBuf. by rewrite Z.div_mul, Heq.
Qed.

Lemma secToBuf_digits sec :
  length (secToBuf sec) = 6%nat ∧ Forall (λ c, isDigit c = true) (secToBuf sec).
Proof.
  destruct (secToBuf_fields sec) as (Hh & Hm & Hs & _). cbv zeta in *.
  destruct (pad2_two_digits _ Hh) as (Lh & _ & Dh).
  destruct (pad2_two_digits _ Hm) as (Lm & _ & Dm).
  destruct (pad2_two_digits _ Hs) as (Ls & _ & Ds).
  unfold secToBuf. cbv zeta. split.
  - by rewrite !length_app, Lh, Lm, Ls.
  - by repeat apply Forall_app_2.
Qed.

Lemma secToBuf_of_clamped sec :
  secToBuf (clamp (toInt32 sec) 0 LIMIT_SEC) = secToBuf sec.
Proof.
  pose proof (clamp_limit (toInt32 sec)) as Ht.
  set (t := clamp (toInt32 sec) 0 LIMIT_SEC) in *.
  unfold secToBuf. fold t.
  assert (clamp (toInt32 t) 0 LIMIT_SEC = t) as ->; [|done].
  rewrite toInt32_small by (unfold LIMIT_SEC in *; lia). unfold clamp. lia.
Qed.

(** X26.  The buffer written by [secToBuf] always has six code units,
    all digits, and is a fixed point of reading and writing again:
    [secToBuf (bufToSec b) = b] for every [b] that [secToBuf]
    produced. *)
Theorem secToBuf_normal_form sec :
  length (secToBuf sec) = 6%nat
  ∧ Forall (λ c, isDigit c = true) (secToBuf sec)
  ∧ secToBuf (bufToSec (secToBuf sec)) = secToBuf sec.
Proof.
  destruct (secToBuf_digits sec) as [Hlen Hdig]. split; [done|]. split; [done|].
  by rewrite bufToSec_secToBuf_clamped, secToBuf_of_clamped.
Qed.

(** X27.  Editing keeps the timer buffer well formed: if the buffer is
    six digits that read as a time up to 23:59:59 and write back
    unchanged, and the caret is between 0 and 6, the same holds after a
    digit is inserted, after backspace, after delete and after an
    adjustment by any number of seconds. *)
Theorem timer_editing_keeps_buffer e d deltaSec :
  timer_edit_ok e →
  timer_edit_ok (insertDigit d e) ∧ timer_edit_ok (backspace e)
  ∧ timer_edit_ok (delAt e) ∧ timer_edit_ok (adjustBy deltaSec e).
Proof.
  assert (∀ sec c, (c ≤ 6)%nat → timer_edit_ok {| buf := secToBuf sec; caret := c |})
    as Hok.
  { intros sec c Hc. destruct (secToBuf_digits sec) as [Hlen Hdig].
    repeat split; try done. simpl.
    by rewrite bufToSec_secToBuf_clamped, secToBuf_of_clamped. }
  intros He. pose proof He as (_ & _ & _ & Hcaret).
  split; [|split; [|split]].
  - apply Hok. unfold clampCaret. lia.
  - unfold backspace. destruct (caret e =? 0)%nat; [done|].
    apply Hok. unfold clampCaret. lia.
  - unfold delAt. destruct (6 <=? caret e)%nat; [done|]. by apply Hok.
  - by apply Hok.
Qed.

(** X28.  Adjusting the timer by [deltaSec] seconds moves the time read
    from the buffer by that much, clamped to 0 .. 23:59:59. *)
Theorem adjustBy_moves_time e deltaSec :
  bufToSec (buf (adjustBy deltaSec e))
  = clamp (bufToSec (buf e) + deltaSec) 0 LIMIT_SEC.
Proof.
  simpl. rewrite bufToSec_secToBuf_clamped.
  pose proof (clamp_limit (bufToSec (buf e) + deltaSec)) as Ht.
  rewrite toInt32_small by (unfold LIMIT_SEC in *; lia). unfold clamp in *. lia.
Qed.

(** * Two more facts on the planner *)

Lemma applyBlockToDays_append_replace (uid_at : nat → string) srcBlock prev
    days next n :
  (∀ d slots, prev !! d = Some slots → chain 0 1440 slots) →
  0 ≤ start srcBlock → 1 ≤ span srcBlock → start srcBlock + span srcBlock ≤ 1440 →
  applyBlockToDays uid_at "append" srcBlock prev days next n
  = applyBlockToDays uid_at "replace" srcBlock prev days next n.
Proof.
  intros Hprev Hlo Hsp Hhi. revert next n.
  induction days as [|d days IH]; intros next n; [done|].
  cbn [applyBlockToDays]. destruct (prev !! d) as [slots|] eqn:Hslots; [|done].
  cbn [mbind option_bind].
  rewrite (applyBlockToDay_append uid_at 0 1440) by eauto.
  rewrite applyBlockToDay_replace. apply IH.
Qed.

(** X29.  On a schedule of valid days the propagation in append mode
    gives exactly what it gives in replace mode: the same schedule and
    the same number of ids drawn. *)
Theorem append_mode_is_replace_mode (uid_at : nat → string) (blockIndex : nat) st :
  valid_schedule (schedule st) →
  applyBlockToAllDays uid_at blockIndex "append" st
  = applyBlockToAllDays uid_at blockIndex "replace" st.
Proof.
  intros Hv. unfold applyBlockToAllDays.
  destruct (schedule st !! dayKey (selectedDay st)) as [srcSlots|] eqn:Hsrc; [|done].
  cbn [mbind option_bind].
  destruct (srcSlots !! blockIndex) as [srcBlock|] eqn:Hblk; [|done].
  destruct (valid_source_block srcSlots blockIndex srcBlock) as (Hlo & Hsp & Hhi);
    [by apply (proj2 Hv _ _ Hsrc)|done|].
  rewrite applyBlockToDays_append_replace; try done.
  intros d slots Hslots. apply valid_partition_chain. by apply (proj2 Hv _ _ Hslots).
Qed.

Lemma lower_white_space z :
  0 ≤ z < 91 →
  (z <? 65) || (negb (isWhiteSpace (Z.to_N z)) && negb (isWhiteSpace (Z.to_N z + 32)))
  = true.
Proof.
  apply (forall_below
           (λ z, (z <? 65)
                 || (negb (isWhiteSpace (Z.to_N z))
                     && negb (isWhiteSpace (Z.to_N z + 32)))) 91).
  by vm_compute.
Qed.

Lemma toLowerCase_cons c s :
  toLowerCase (c :: s)
  = (if ((65 <=? c) && (c <=? 90))%N then (c + 32)%N else c) :: toLowerCase s.
Proof. done. Qed.

Lemma lower_keeps_white_space c :
  isWhiteSpace (if ((65 <=? c) && (c <=? 90))%N then (c + 32)%N else c)
  = isWhiteSpace c.
Proof.
  destruct (N.leb_spec 65 c) as [Hlo|Hlo], (N.leb_spec c 90) as [Hhi|Hhi];
    simpl; try done.
  pose proof (lower_white_space (Z.of_N c) ltac:(lia)) as Hw.
  rewrite N2Z.id in Hw. destruct (Z.ltb_spec (Z.of_N c) 65); [lia|]. simpl in Hw.
  apply andb_true_iff in Hw as [H1 H2].
  apply negb_true_iff in H1, H2. by rewrite H1, H2.
Qed.

Lemma trimStart_toLowerCase s : trimStart (toLowerCase s) = toLowerCase (trimStart s).
Proof.
  induction s as [|c s IH]; [done|].
  rewrite toLowerCase_cons. cbn [trimStart]. rewrite lower_keeps_white_space.
  destruct (isWhiteSpace c); [done|]. by rewrite toLowerCase_cons.
Qed.

Lemma reverse_toLowerCase s : reverse (toLowerCase s) = toLowerCase (reverse s).
Proof. unfold toLowerCase. by rewrite fmap_reverse. Qed.

Lemma trim_toLowerCase s : trim (toLowerCase s) = toLowerCase (trim s).
Proof.
  unfold trim, trimEnd.
  by rewrite trimStart_toLowerCase, reverse_toLowerCase, trimStart_toLowerCase,
    reverse_toLowerCase.
Qed.

Lemma toLowerCase_idemp s : toLowerCase (toLowerCase s) = toLowerCase s.
Proof.
  induction s as [|c s IH]; [done|]. rewrite !toLowerCase_cons, IH. f_equal.
  destruct (N.leb_spec 65 c) as [Hlo|Hlo], (N.leb_spec c 90) as [Hhi|Hhi]; simpl.
  - destruct (N.leb_spec 65 (c + 32)), (N.leb_spec (c + 32) 90); simpl; try done. lia.
  - destruct (N.leb_spec 65 c), (N.leb_spec c 90); simpl; try done; lia.
  - destruct (N.leb_spec 65 c), (N.leb_spec c 90); simpl; try done; lia.
  - destruct (N.leb_spec 65 c), (N.leb_spec c 90); simpl; try done; lia.
Qed.

(** X30.  The time parser does not look at the case of the letters A
    to Z: the text and the text with these letters in lower case parse
    alike, so "AM" and "PM" may be typed in any case. *)
Theorem parseTimeToMinutes_ignores_case s :
  parseTimeToMinutes (toLowerCase s) = parseTimeToMinutes s.
Proof.
  unfold parseTimeToMinutes.
  rewrite trim_toLowerCase, toLowerCase_idemp.
  by destruct s.
Qed.

(** * The further properties at concrete inputs *)

Lemma parseTimeToMinutes_minute_of_day_witness :
  parseTimeToMinutes (ustr "9:30 pm") = Some 1290 ∧ 0 ≤ 1290 < MINS_IN_DAY.
Proof.
  assert (parseTimeToMinutes (ustr "9:30 pm") = Some 1290) as H by (by vm_compute).
  split; [exact H|]. exact (parseTimeToMinutes_minute_of_day _ _ H).
Defined.

Lemma parseTimeToMinutes_clamps_witness :
  parseTimeToMinutes (ustr "25:70") = Some (23 * 60 + 59)
  ∧ parseTimeToMinutes (ustr "2570") = Some (23 * 60 + 59).
Proof. apply (parseTimeToMinutes_clamps 25 70); lia. Defined.

Lemma findCurrentBlockIndex_contains_minute_witness :
  valid_partition defaultDay
  ∧ ∃ b, defaultDay !! findCurrentBlockIndex 615 defaultDay true = Some b
         ∧ start b ≤ 615 < endOf b.
Proof.
  split; [apply defaultDay_valid|].
  apply (findCurrentBlockIndex_contains_minute defaultDay 615 true defaultDay_valid).
  lia.
Defined.

Lemma getCompactWindow_shows_current_block_witness :
  valid_schedule (schedule gymWeek)
  ∧ ∃ p before b later,
      schedule gymWeek !! "Monday"%string = Some p
      ∧ p = before ++ b :: later
      ∧ start b ≤ 100 < endOf b
      ∧ getCompactWindow 100 1 gymWeek
        = Some (compactItem b :: (compactItem <$> take 2 later)).
Proof.
  split; [apply gymWeek_valid|].
  apply (getCompactWindow_shows_current_block 100 1 gymWeek gymWeek_valid);
    simpl; lia.
Defined.

Lemma compactItem_labels_join_witness :
  valid_partition defaultDay
  ∧ endLabel (compactItem {| start := 0; span := 60; tasks := [] |})
    = startLabel (compactItem {| start := 60; span := 60; tasks := [] |}).
Proof.
  split; [apply defaultDay_valid|].
  apply (proj1 (compactItem_labels_join defaultDay defaultDay_valid) 0%nat);
    reflexivity.
Defined.

Lemma unmerge_then_merge_restores_witness :
  unmergeSlot 0 [ {| start := 0; span := 180; tasks := [gymTask] |} ]
    ≫= mergeSlots 0
  = Some [ {| start := 0; span := 180; tasks := [gymTask] |} ].
Proof.
  apply (unmerge_then_merge_restores _ 0 {| start := 0; span := 180; tasks := [gymTask] |});
    [reflexivity|simpl; lia].
Defined.

Lemma add_then_remove_restores_witness :
  addTask 1 "n000001" "walk" (dayWithBlock [gymTask]) ≫= removeTask 1 "n000001"
  = Some (dayWithBlock [gymTask]).
Proof.
  apply (add_then_remove_restores 1 "n000001" "walk" (dayWithBlock [gymTask])
           {| start := 90; span := 60; tasks := [gymTask] |}); [reflexivity|].
  repeat constructor. simpl. discriminate.
Defined.

Lemma removeTask_removes_id_witness :
  removeTask 1 "g000001" (dayWithBlock [gymTask; callMomTask])
  = Some (dayWithBlock [callMomTask])
  ∧ removeTask 1 "g000001" (dayWithBlock [callMomTask])
    = Some (dayWithBlock [callMomTask]).
Proof.
  assert (removeTask 1 "g000001" (dayWithBlock [gymTask; callMomTask])
          = Some (dayWithBlock [callMomTask])) as H by (by vm_compute).
  split; [exact H|]. exact (proj2 (proj2 (removeTask_removes_id _ _ _ _ H))).
Defined.

Lemma updateTask_absent_id_witness :
  updateTask 1 "zzzzzzz"
    {| patch_id := None; patch_text := None; patch_done := Some true |}
    (dayWithBlock [gymTask])
  = Some (dayWithBlock [gymTask]).
Proof.
  apply (proj1 (updateTask_absent_id 1 "zzzzzzz" _ (dayWithBlock [gymTask])
                  {| start := 90; span := 60; tasks := [gymTask] |} eq_refl)).
  repeat constructor. simpl. discriminate.
Defined.

Lemma replaceRange_exact_block_witness :
  valid_partition (dayWithBlock [gymTask])
  ∧ replaceRangeWithSingleBlock (dayWithBlock [gymTask]) 90 60 [callMomTask]
    = dayWithBlock [callMomTask].
Proof.
  split; [apply dayWithBlock_valid|].
  exact (replaceRange_exact_block (dayWithBlock [gymTask]) 1
           {| start := 90; span := 60; tasks := [gymTask] |} [callMomTask]
           (dayWithBlock_valid _) eq_refl).
Defined.

Lemma replaceRange_twice_witness :
  valid_partition defaultDay
  ∧ replaceRangeWithSingleBlock
      (replaceRangeWithSingleBlock defaultDay 30 120 [gymTask]) 30 120 [callMomTask]
    = replaceRangeWithSingleBlock defaultDay 30 120 [callMomTask].
Proof.
  split; [apply defaultDay_valid|].
  apply (replaceRange_twice defaultDay 30 120); [apply defaultDay_valid|lia..].
Defined.

Lemma replaceRange_without_overlap_witness :
  replaceRangeWithSingleBlock
    [ {| start := 0; span := 60; tasks := [gymTask] |};
      {| start := 600; span := 840; tasks := [] |} ] 100 200 [callMomTask]
  = [ {| start := 0; span := 60; tasks := [gymTask] |};
      {| start := 600; span := 840; tasks := [] |} ].
Proof.
  apply replaceRange_without_overlap.
  repeat constructor; unfold overlaps, endOf; simpl; lia.
Defined.

Lemma replaceRange_length_witness :
  valid_partition defaultDay
  ∧ (1 ≤ length (replaceRangeWithSingleBlock defaultDay 30 20 []) ≤ 24 + 2)%nat.
Proof.
  split; [apply defaultDay_valid|].
  apply (replaceRange_length defaultDay 30 20 [] defaultDay_valid); lia.
Defined.

Lemma step_changes_selected_day_only_witness :
  ∃ st', step letter_ids (OpMergeSlots 0) gymWeek = Some st'
         ∧ schedule st' !! "Tuesday"%string = schedule gymWeek !! "Tuesday"%string.
Proof.
  destruct (step letter_ids (OpMergeSlots 0) gymWeek) as [st'|] eqn:Hstep.
  - exists st'. split; [reflexivity|].
    apply (step_changes_selected_day_only letter_ids (OpMergeSlots 0) gymWeek st'
             "Tuesday" Hstep); [discriminate|].
    simpl. discriminate.
  - vm_compute in Hstep. discriminate Hstep.
Defined.

Lemma applyBlockToAllDays_other_mode_witness :
  ∃ st',
    applyBlockToAllDays letter_ids 1 "Replace" gymWeek = Some st'
    ∧ draws st' = draws gymWeek
    ∧ ∀ d, d ∈ DAYS →
        ∃ slots, schedule gymWeek !! d = Some slots
          ∧ schedule st' !! d = Some (replaceRangeWithSingleBlock slots 90 60 []).
Proof.
  apply (applyBlockToAllDays_other_mode letter_ids 1 "Replace" gymWeek
           (dayWithBlock [gymTask]) {| start := 90; span := 60; tasks := [gymTask] |});
    [discriminate|discriminate|apply gymWeek_valid|reflexivity|reflexivity].
Defined.

Lemma applyBlockToAllDays_missing_day_witness :
  schedule weekWithoutFriday !! "Friday"%string = None
  ∧ applyBlockToAllDays letter_ids 1 "replace" weekWithoutFriday = None.
Proof.
  split; [reflexivity|].
  apply (applyBlockToAllDays_missing_day letter_ids 1 "replace" weekWithoutFriday
           (dayWithBlock [gymTask]) {| start := 90; span := 60; tasks := [gymTask] |}
           "Friday"); [reflexivity|reflexivity| |reflexivity].
  unfold DAYS. rewrite !elem_of_cons. auto 10.
Defined.

Lemma addCustomBlock_creates_block_witness :
  ∃ st' day,
    addCustomBlock (Some (ustr "9:30 - 10")) gymWeek = (None, Some st')
    ∧ schedule st' !! "Monday"%string = Some day
    ∧ valid_partition day
    ∧ filter (at_range 570 30) day = [ {| start := 570; span := 30; tasks := [] |} ]
    ∧ ∀ d, d ≠ "Monday"%string → schedule st' !! d = schedule gymWeek !! d.
Proof.
  apply (addCustomBlock_creates_block (ustr "9:30 - 10") gymWeek
           (ustr "9:30 ") (ustr " 10") [] 570 600 gymWeek_valid);
    [simpl; lia|reflexivity|reflexivity|reflexivity|lia].
Defined.

Lemma replace_mode_on_source_day_witness :
  ∃ st',
    applyBlockToAllDays letter_ids 1 "replace" gymWeek = Some st'
    ∧ schedule st' !! "Monday"%string
      = Some (dayWithBlock
                [ {| Task.id := "b"; Task.text := "gym"; Task.done := false |} ]).
Proof.
  apply (replace_mode_on_source_day letter_ids 1 gymWeek (dayWithBlock [gymTask])
           {| start := 90; span := 60; tasks := [gymTask] |} gymWeek_valid);
    [simpl; lia|reflexivity|reflexivity].
Defined.

Lemma timer_editing_keeps_buffer_witness :
  timer_edit_ok clearedTimer
  ∧ timer_edit_ok (insertDigit (ustr "7") clearedTimer)
  ∧ buf (insertDigit (ustr "7") clearedTimer) = ustr "235959".
Proof.
  assert (timer_edit_ok clearedTimer) as Hok.
  { split; [reflexivity|]. split; [by repeat constructor|].
    split; [by vm_compute|simpl; lia]. }
  split; [exact Hok|].
  split; [exact (proj1 (timer_editing_keeps_buffer clearedTimer (ustr "7") 0 Hok))|].
  by vm_compute.
Defined.

Lemma append_mode_is_replace_mode_witness :
  applyBlockToAllDays letter_ids 1 "append" gymWeek
  = applyBlockToAllDays letter_ids 1 "replace" gymWeek.
Proof. exact (append_mode_is_replace_mode letter_ids 1 gymWeek gymWeek_valid). Defined.
